(** * The quantizers of the quantization tutorial

    Shallow embedding of the two quantizers of
    [tutorials/quantization_tutorial.ipynb]:
    - [simpleQuantizer] (the asymmetric quantizer, zero point [clip_min]);
    - the symmetric branch of the "symmetric vs asymmetric" loop
      ([clip_min_i = -max(clip_max, |clip_min|)], [nbins = 2**n_bit - 2],
      [zp = 0]).

    Numbers are exact rationals [Q]: the statements are about the arithmetic
    the notebook writes, not about floating-point rounding. An array is the
    list of its elements (every operation is elementwise, so the shape plays
    no role). [torch.round] and [np.round] round half-way cases to the even
    neighbour; [torch.clamp] and [np.clip] compute [min(max(x, lo), hi)]. *)

From Stdlib Require Import ZArith QArith Qround Qabs Qminmax Lqa Lia List Sorted.
Import ListNotations.

Local Open Scope Q_scope.

(** ** Python and tensor primitives *)

(** Exceptions the quantizer can raise. *)
Inductive exn : Type :=
| ZeroDivisionError.

(** A Python computation: an exception or a value. *)
Definition result (A : Type) : Type := (exn + A)%type.

Definition ret {A : Type} (a : A) : result A := inr a.

Definition bind {A B : Type} (m : result A) (k : A -> result B) : result B :=
  match m with
  | inl e => inl e
  | inr a => k a
  end.

Notation "x <- m ;; k" := (bind m (fun x => k))
  (at level 61, m at next level, right associativity).

(** [a / b] on Python scalars: [ZeroDivisionError] when [b] is zero. *)
Definition py_div (a b : Q) : result Q :=
  if Qeq_bool b 0 then inl ZeroDivisionError else inr (a / b).

(** [2 ** n] for a Python int [n] (a float when [n] is negative). *)
Definition py_pow2 (n : Z) : Q :=
  if (0 <=? n)%Z then inject_Z (2 ^ n) else / inject_Z (2 ^ (- n)).

(** Python's builtin [max(a, b)]: the first argument unless the second is
    strictly larger. *)
Definition py_max (a b : Q) : Q :=
  if Qlt_le_dec a b then b else a.

(** [torch.clamp(x, lo, hi)] and [np.clip(x, lo, hi)] on one element:
    [min(max(x, lo), hi)] (so [hi] wins when [lo > hi]). *)
Definition torch_clamp (x lo hi : Q) : Q :=
  let m := if Qlt_le_dec x lo then lo else x in
  if Qlt_le_dec hi m then hi else m.

(** [torch.round] and [np.round] on one element: round to nearest, half-way
    cases to the even integer. *)
Definition torch_round (q : Q) : Z :=
  let f := Qfloor q in
  match Qcompare (q - inject_Z f) (1 # 2) with
  | Lt => f
  | Gt => (f + 1)%Z
  | Eq => if Z.even f then f else (f + 1)%Z
  end.

(** ** The asymmetric quantizer

<<
def simpleQuantizer(input, n_bit, clip_min, clip_max):
    zp = clip_min
    stepsize = (clip_max - zp) / (2 ** n_bit -1)

    y_scaled = (torch.clamp(input, clip_min, clip_max) - clip_min) / stepsize
    y_int    = torch.round(y_scaled)
    return y_int * stepsize + zp
>>
    [stepsize] is computed on Python floats (the notebook passes float clip
    bounds), so a zero divisor raises. The tensor division by [stepsize]
    happens only once [stepsize] exists; a zero [stepsize] (when
    [clip_min = clip_max]) gives NaN in torch, which [Q] does not have: no
    statement below relies on that case. *)

Definition asym_stepsize (n_bit : Z) (clip_min clip_max : Q) : result Q :=
  let zp := clip_min in
  py_div (clip_max - zp) (py_pow2 n_bit - 1).

Definition asym_scaled (clip_min clip_max stepsize y : Q) : Q :=
  (torch_clamp y clip_min clip_max - clip_min) / stepsize.

Definition asym_code (clip_min clip_max stepsize y : Q) : Z :=
  torch_round (asym_scaled clip_min clip_max stepsize y).

Definition asym_elem (clip_min clip_max stepsize y : Q) : Q :=
  let zp := clip_min in
  inject_Z (asym_code clip_min clip_max stepsize y) * stepsize + zp.

Definition simpleQuantizer (input : list Q) (n_bit : Z) (clip_min clip_max : Q)
  : result (list Q) :=
  stepsize <- asym_stepsize n_bit clip_min clip_max ;;
  ret (map (asym_elem clip_min clip_max stepsize) input).

(** ** The symmetric quantizer

<<
        clip_min_i = -max(clip_max, np.abs(clip_min))
        nbins = 2**n_bit -2
        scale = (clip_max - clip_min_i)/nbins
        zp = 0
    y_int_i = np.round( (np.clip(raw_i, clip_min, clip_max) - zp)/scale )
    yq_i = y_int_i*scale + zp
>>
    The clip uses the original [clip_min], not [clip_min_i]. For
    [n_bit = 1] the source divides by [nbins = 0]; the statements below on
    this quantizer assume [n_bit >= 2]. *)

Definition sym_clip_min (clip_min clip_max : Q) : Q :=
  - py_max clip_max (Qabs clip_min).

Definition sym_nbins (n_bit : Z) : Q := py_pow2 n_bit - 2.

Definition sym_scale (n_bit : Z) (clip_min clip_max : Q) : Q :=
  (clip_max - sym_clip_min clip_min clip_max) / sym_nbins n_bit.

Definition sym_zp : Q := 0.

Definition sym_code (n_bit : Z) (clip_min clip_max x : Q) : Z :=
  torch_round ((torch_clamp x clip_min clip_max - sym_zp)
               / sym_scale n_bit clip_min clip_max).

Definition sym_elem (n_bit : Z) (clip_min clip_max x : Q) : Q :=
  inject_Z (sym_code n_bit clip_min clip_max x) * sym_scale n_bit clip_min clip_max
  + sym_zp.

Definition symQuantizer (raw : list Q) (n_bit : Z) (clip_min clip_max : Q)
  : list Q :=
  map (sym_elem n_bit clip_min clip_max) raw.

(** ** Distinct values of an array

    Two rationals denote the same value when they are [Qeq]; [Qred] picks
    one representative per value, so the distinct values of an array are the
    duplicate-free list of the reduced elements. *)

Definition Q_eq_dec (a b : Q) : {a = b} + {a <> b}.
Proof. decide equality; [apply Pos.eq_dec | apply Z.eq_dec]. Defined.

Definition distinct_values (l : list Q) : list Q :=
  nodup Q_eq_dec (map Qred l).

(** [z] is a nearest integer to [q], with a tie broken to the even one:
    the specification of [torch_round]. *)
Definition nearest_even (q : Q) (z : Z) : Prop :=
  (q - (1 # 2) < inject_Z z /\ inject_Z z < q + (1 # 2))
  \/ ((inject_Z z == q + (1 # 2) \/ inject_Z z == q - (1 # 2))
      /\ Z.even z = true).

(** ** The quantizer as the specification writes it

    The six steps of the asymmetric algorithm, for a rounding function
    [rnd] that rounds to a nearest integer (the specification leaves the tie
    convention open). *)

Definition spec_clamp (x clip_lower clip_upper : Q) : Q :=
  if Qlt_le_dec x clip_lower then clip_lower
  else if Qlt_le_dec clip_upper x then clip_upper
  else x.

Definition spec_quantize_asym (rnd : Q -> Z) (bit_width : Z)
  (clip_lower clip_upper x : Q) : Q :=
  let zero_point := clip_lower in
  let step_size := (clip_upper - zero_point) / (inject_Z (2 ^ bit_width) - 1) in
  let clamped := spec_clamp x clip_lower clip_upper in
  let scaled := (clamped - zero_point) / step_size in
  let code := rnd scaled in
  inject_Z code * step_size + zero_point.

(** ** The step-by-step walkthrough of the tutorial

<<
clip_min, clip_max = -2.5, 2.5
clipped_data = np.clip(raw_data, clip_min, clip_max)
print("MSE(raw_data, clipped_data)", np.mean( (raw_data-clipped_data)**2 ))
isClipped=np.logical_or(raw_data>clip_max, raw_data<clip_min)
...
n_bit = 4
zp = clip_min
stepsize = (clip_max - zp) / (2 ** n_bit -1)
y_scaled = (clipped_data - clip_min) / stepsize
y_int    = np.round(y_scaled)
...
yq = y_int * stepsize + zp
>> *)

Definition np_clip (raw : list Q) (clip_min clip_max : Q) : list Q :=
  map (fun x => torch_clamp x clip_min clip_max) raw.

(** One element of [np.logical_or(raw_data>clip_max, raw_data<clip_min)]. *)
Definition is_clipped (clip_min clip_max x : Q) : bool :=
  orb (if Qlt_le_dec clip_max x then true else false)
      (if Qlt_le_dec x clip_min then true else false).

(** [np.mean]: the sum divided by the number of elements; the mean of an
    empty array is NaN, here [None]. *)
Definition np_mean (l : list Q) : option Q :=
  match l with
  | [] => None
  | _ => Some (fold_right Qplus 0 l / inject_Z (Z.of_nat (length l)))
  end.

(** [(a - b)**2] elementwise, for arrays of one shape. *)
Definition sq_diff (a b : list Q) : list Q :=
  map (fun p => (fst p - snd p) * (fst p - snd p)) (combine a b).

(** [np.mean((raw_data-clipped_data)**2)]. *)
Definition clip_mse (raw : list Q) (clip_min clip_max : Q) : option Q :=
  np_mean (sq_diff raw (np_clip raw clip_min clip_max)).

(** The cells "scale, shift and quantize" and "dequantize": [y_scaled],
    [y_int] and [yq]. *)
Definition tutorial_quantize (raw : list Q) (n_bit : Z) (clip_min clip_max : Q)
  : result (list Q * list Z * list Q) :=
  let clipped_data := np_clip raw clip_min clip_max in
  let zp := clip_min in
  stepsize <- py_div (clip_max - zp) (py_pow2 n_bit - 1) ;;
  let y_scaled := map (fun c => (c - clip_min) / stepsize) clipped_data in
  let y_int := map torch_round y_scaled in
  let yq := map (fun k => inject_Z k * stepsize + zp) y_int in
  ret (y_scaled, y_int, yq).

(** ** [PlotAndCompare]

<<
def PlotAndCompare(d1, d2, labels, title):
    mse = nn.functional.mse_loss(d1, d2, reduction='mean' )
>>
    [mse_loss] with [reduction='mean'] is the mean of the squared
    differences (NaN, here [None], on empty tensors). *)

Definition mse_loss (d1 d2 : list Q) : option Q := np_mean (sq_diff d1 d2).

(** ** The symmetric branch: the upper clip bound annotation

<<
    max_bin_i = np.round( (clip_max-zp)/scale)*scale + zp
>> *)

Definition sym_max_bin (n_bit : Z) (clip_min clip_max : Q) : Q :=
  inject_Z (torch_round ((clip_max - sym_zp) / sym_scale n_bit clip_min clip_max))
  * sym_scale n_bit clip_min clip_max + sym_zp.

(** ** The asymmetric branch of the "symmetric vs asymmetric" loop

<<
    if 'asym Q' in lbl_i:
        clip_min_i = np.min(raw_i)
        nbins = 2**n_bit -1
        scale = (clip_max - clip_min_i)/nbins
        zp = np.round(-clip_min_i/scale)
    ...
    y_int_i = np.round( (np.clip(raw_i, clip_min, clip_max) - zp)/scale )
    yq_i = y_int_i*scale + zp
>>
    [np.min] of an empty array raises [ValueError], here [None]. The clip
    uses the loop's [clip_min], not [clip_min_i]. [clip_min_i] is a numpy
    float, so a zero [nbins] or [scale] gives inf or NaN rather than an
    exception; the statements below assume [n_bit >= 1] and
    [clip_min_i < clip_max], where neither happens. *)

Definition np_min (l : list Q) : option Q :=
  match l with
  | [] => None
  | x :: t => Some (fold_left (fun acc y => if Qlt_le_dec y acc then y else acc) t x)
  end.

Definition asymQ_branch (raw : list Q) (n_bit : Z) (clip_min clip_max : Q)
  : option (list Q) :=
  match np_min raw with
  | None => None
  | Some clip_min_i =>
      let nbins := py_pow2 n_bit - 1 in
      let scale := (clip_max - clip_min_i) / nbins in
      let zp := inject_Z (torch_round (- clip_min_i / scale)) in
      Some (map (fun x =>
                   inject_Z (torch_round ((torch_clamp x clip_min clip_max - zp) / scale))
                   * scale + zp) raw)
  end.

(** ** Sanity checks on the primitives *)

Example torch_round_7_5 : torch_round (15 # 2) = 8%Z.
Proof. reflexivity. Qed.

Example torch_round_6_5 : torch_round (13 # 2) = 6%Z.
Proof. reflexivity. Qed.

Example torch_round_m6_5 : torch_round (- (13 # 2)) = (-6)%Z.
Proof. reflexivity. Qed.

Example torch_round_m2_8 : torch_round (- (14 # 5)) = (-3)%Z.
Proof. reflexivity. Qed.

(** ** Rounding *)

Lemma Q_to_Z_lt (a b c : Z) :
  inject_Z a < inject_Z b + inject_Z c -> (a < b + c)%Z.
Proof. rewrite Zlt_Qlt, inject_Z_plus. auto. Qed.

Lemma Q_to_Z_le (a b c : Z) :
  inject_Z a <= inject_Z b + inject_Z c -> (a <= b + c)%Z.
Proof. rewrite Zle_Qle, inject_Z_plus. auto. Qed.

Lemma Q_to_Z_eq (a b c : Z) :
  inject_Z a == inject_Z b + inject_Z c -> a = (b + c)%Z.
Proof. rewrite <- inject_Z_plus, inject_Z_injective. auto. Qed.

Lemma inject_Z_1 : inject_Z 1 = 1.
Proof. reflexivity. Qed.

Lemma inject_Z_0 : inject_Z 0 = 0.
Proof. reflexivity. Qed.

Lemma torch_round_spec (q : Q) : nearest_even q (torch_round q).
Proof.
  unfold torch_round, nearest_even.
  pose proof (Qfloor_le q) as Hf1.
  pose proof (Qlt_floor q) as Hf2.
  rewrite inject_Z_plus, inject_Z_1 in Hf2.
  destruct (Qcompare_spec (q - inject_Z (Qfloor q)) (1 # 2)) as [E|E|E].
  - destruct (Z.even (Qfloor q)) eqn:Ev.
    + right. split; [right; lra | exact Ev].
    + right. split.
      * left. rewrite inject_Z_plus, inject_Z_1. lra.
      * rewrite Z.even_add, Ev. reflexivity.
  - left. lra.
  - left. rewrite inject_Z_plus, inject_Z_1. lra.
Qed.

Lemma nearest_even_unique (q : Q) (z1 z2 : Z) :
  nearest_even q z1 -> nearest_even q z2 -> z1 = z2.
Proof.
  unfold nearest_even.
  intros [[A1 B1] | [[T1 | T1] E1]] [[A2 B2] | [[T2 | T2] E2]].
  - assert (H1 : inject_Z z1 < inject_Z z2 + inject_Z 1)
      by (rewrite inject_Z_1; lra).
    assert (H2 : inject_Z z2 < inject_Z z1 + inject_Z 1)
      by (rewrite inject_Z_1; lra).
    apply Q_to_Z_lt in H1. apply Q_to_Z_lt in H2. lia.
  - assert (H1 : inject_Z z1 < inject_Z z2 + inject_Z 0) by (rewrite inject_Z_0; lra).
    assert (H2 : inject_Z z2 < inject_Z z1 + inject_Z 1)
      by (rewrite inject_Z_1; lra).
    apply Q_to_Z_lt in H1. apply Q_to_Z_lt in H2. lia.
  - assert (H1 : inject_Z z2 < inject_Z z1 + inject_Z 0) by (rewrite inject_Z_0; lra).
    assert (H2 : inject_Z z1 < inject_Z z2 + inject_Z 1)
      by (rewrite inject_Z_1; lra).
    apply Q_to_Z_lt in H1. apply Q_to_Z_lt in H2. lia.
  - assert (H1 : inject_Z z2 < inject_Z z1 + inject_Z 0) by (rewrite inject_Z_0; lra).
    assert (H2 : inject_Z z1 < inject_Z z2 + inject_Z 1)
      by (rewrite inject_Z_1; lra).
    apply Q_to_Z_lt in H1. apply Q_to_Z_lt in H2. lia.
  - assert (H : inject_Z z1 == inject_Z z2 + inject_Z 0) by (rewrite inject_Z_0; lra).
    apply Q_to_Z_eq in H. lia.
  - assert (H : inject_Z z1 == inject_Z z2 + inject_Z 1)
      by (rewrite inject_Z_1; lra).
    apply Q_to_Z_eq in H. subst z1.
    rewrite Z.even_add, E2 in E1. discriminate.
  - assert (H1 : inject_Z z1 < inject_Z z2 + inject_Z 0) by (rewrite inject_Z_0; lra).
    assert (H2 : inject_Z z2 < inject_Z z1 + inject_Z 1)
      by (rewrite inject_Z_1; lra).
    apply Q_to_Z_lt in H1. apply Q_to_Z_lt in H2. lia.
  - assert (H : inject_Z z2 == inject_Z z1 + inject_Z 1)
      by (rewrite inject_Z_1; lra).
    apply Q_to_Z_eq in H. subst z2.
    rewrite Z.even_add, E1 in E2. discriminate.
  - assert (H : inject_Z z1 == inject_Z z2 + inject_Z 0) by (rewrite inject_Z_0; lra).
    apply Q_to_Z_eq in H. lia.
Qed.

Lemma torch_round_unique (q : Q) (z : Z) :
  nearest_even q z -> torch_round q = z.
Proof.
  intros H. exact (nearest_even_unique q _ _ (torch_round_spec q) H).
Qed.

Lemma torch_round_Z (z : Z) : torch_round (inject_Z z) = z.
Proof. apply torch_round_unique. left. split; lra. Qed.

Lemma torch_round_compat (q1 q2 : Q) :
  q1 == q2 -> torch_round q1 = torch_round q2.
Proof.
  intros E. symmetry. apply torch_round_unique.
  destruct (torch_round_spec q1) as [[A B] | [[T | T] Ev]].
  - left. split; lra.
  - right. split; [left; lra | exact Ev].
  - right. split; [right; lra | exact Ev].
Qed.

Lemma torch_round_shift_even (q : Q) (k : Z) :
  torch_round (q + inject_Z (2 * k)) = (torch_round q + 2 * k)%Z.
Proof.
  apply torch_round_unique. unfold nearest_even.
  rewrite inject_Z_plus.
  assert (Ev : Z.even (torch_round q + 2 * k) = Z.even (torch_round q))
    by (rewrite Z.even_add, Z.even_mul; simpl; destruct (Z.even (torch_round q)); reflexivity).
  rewrite Ev.
  destruct (torch_round_spec q) as [[A B] | [[T | T] E]].
  - left. split; lra.
  - right. split; [left; lra | exact E].
  - right. split; [right; lra | exact E].
Qed.

Lemma torch_round_err (q : Q) :
  q - (1 # 2) <= inject_Z (torch_round q) /\ inject_Z (torch_round q) <= q + (1 # 2).
Proof.
  destruct (torch_round_spec q) as [[A B] | [[T | T] _]]; lra.
Qed.

Lemma torch_round_mono (q1 q2 : Q) :
  q1 <= q2 -> (torch_round q1 <= torch_round q2)%Z.
Proof.
  intros Hle.
  destruct (Z_le_gt_dec (torch_round q1) (torch_round q2)) as [|Hgt]; [assumption|].
  exfalso.
  destruct (torch_round_err q1) as [A1 B1].
  destruct (torch_round_err q2) as [A2 B2].
  assert (H : inject_Z (torch_round q1) <= inject_Z (torch_round q2) + inject_Z 1)
    by (rewrite inject_Z_1; lra).
  apply Q_to_Z_le in H.
  assert (Hs : torch_round q1 = (torch_round q2 + 1)%Z) by lia.
  assert (Hq : inject_Z (torch_round q1) == inject_Z (torch_round q2) + 1)
    by (rewrite Hs, inject_Z_plus, inject_Z_1; reflexivity).
  destruct (torch_round_spec q1) as [[C1 D1] | [[T1 | T1] E1]];
  destruct (torch_round_spec q2) as [[C2 D2] | [[T2 | T2] E2]];
    try lra.
  rewrite Hs, Z.even_add, E2 in E1. discriminate.
Qed.

(** ** Clamping *)

Lemma torch_clamp_range (x lo hi : Q) :
  lo <= hi -> lo <= torch_clamp x lo hi /\ torch_clamp x lo hi <= hi.
Proof.
  intros H. unfold torch_clamp.
  destruct (Qlt_le_dec x lo); destruct (Qlt_le_dec hi _); lra.
Qed.

Lemma torch_clamp_id (x lo hi : Q) :
  lo <= x -> x <= hi -> torch_clamp x lo hi = x.
Proof.
  intros H1 H2. unfold torch_clamp.
  destruct (Qlt_le_dec x lo); [lra|].
  destruct (Qlt_le_dec hi x); [lra | reflexivity].
Qed.

Lemma torch_clamp_mono (x y lo hi : Q) :
  x <= y -> torch_clamp x lo hi <= torch_clamp y lo hi.
Proof.
  intros H. unfold torch_clamp.
  destruct (Qlt_le_dec x lo); destruct (Qlt_le_dec y lo);
    repeat match goal with |- context [Qlt_le_dec ?a ?b] =>
             destruct (Qlt_le_dec a b) end; lra.
Qed.

Lemma div_mul_cancel (a b : Q) : ~ b == 0 -> a / b * b == a.
Proof. intros H. field. exact H. Qed.

(** ** The asymmetric quantizer on valid parameters

    [NZ] is the number of steps [2 ** n_bit - 1] as an integer. *)

Section Asym.
Variables clip_min clip_max : Q.
Variable NZ : Z.
Hypothesis Hclip : clip_min < clip_max.
Hypothesis HNZ : (1 <= NZ)%Z.

Variable s : Q.
Hypothesis s_mul : s * inject_Z NZ == clip_max - clip_min.

Lemma NZ_pos : 1 <= inject_Z NZ.
Proof. rewrite <- inject_Z_1, <- Zle_Qle. exact HNZ. Qed.

Lemma s_pos : 0 < s.
Proof. pose proof NZ_pos. pose proof s_mul. nra. Qed.

Lemma scaled_mul (y : Q) :
  asym_scaled clip_min clip_max s y * s
  == torch_clamp y clip_min clip_max - clip_min.
Proof.
  unfold asym_scaled. apply div_mul_cancel. pose proof s_pos. lra.
Qed.

Lemma scaled_range (y : Q) :
  0 <= asym_scaled clip_min clip_max s y
  /\ asym_scaled clip_min clip_max s y <= inject_Z NZ.
Proof.
  pose proof (scaled_mul y). pose proof s_pos. pose proof s_mul.
  destruct (torch_clamp_range y clip_min clip_max) as [A B]; [lra|].
  split; nra.
Qed.

Lemma code_range (y : Q) :
  (0 <= asym_code clip_min clip_max s y <= NZ)%Z.
Proof.
  unfold asym_code. destruct (scaled_range y) as [A B].
  rewrite <- (torch_round_Z 0), <- (torch_round_Z NZ).
  split; apply torch_round_mono; [exact A | exact B].
Qed.

Lemma elem_range (y : Q) :
  clip_min <= asym_elem clip_min clip_max s y
  /\ asym_elem clip_min clip_max s y <= clip_max.
Proof.
  unfold asym_elem.
  destruct (code_range y) as [A B].
  rewrite Zle_Qle, inject_Z_0 in A. rewrite Zle_Qle in B.
  pose proof s_pos. pose proof s_mul.
  split; nra.
Qed.

Lemma elem_idem (y : Q) :
  asym_elem clip_min clip_max s (asym_elem clip_min clip_max s y)
  == asym_elem clip_min clip_max s y.
Proof.
  destruct (elem_range y) as [A B].
  set (k := asym_code clip_min clip_max s y).
  assert (Hk : asym_code clip_min clip_max s (asym_elem clip_min clip_max s y) = k).
  { unfold asym_code at 1, asym_scaled.
    rewrite (torch_clamp_id _ _ _ A B).
    rewrite <- (torch_round_Z k). apply torch_round_compat.
    unfold asym_elem. fold k. field.
    pose proof s_pos. lra. }
  unfold asym_elem at 1. rewrite Hk. reflexivity.
Qed.

Lemma elem_mono (a b : Q) :
  a <= b -> asym_elem clip_min clip_max s a <= asym_elem clip_min clip_max s b.
Proof.
  intros Hab. unfold asym_elem.
  assert (Hk : (asym_code clip_min clip_max s a <= asym_code clip_min clip_max s b)%Z).
  { unfold asym_code. apply torch_round_mono.
    pose proof (scaled_mul a). pose proof (scaled_mul b). pose proof s_pos.
    pose proof (torch_clamp_mono a b clip_min clip_max Hab).
    nra. }
  rewrite Zle_Qle in Hk. pose proof s_pos. nra.
Qed.

Lemma elem_err (x : Q) :
  clip_min <= x -> x <= clip_max ->
  Qabs (asym_elem clip_min clip_max s x - x) <= s / 2.
Proof.
  intros A B. apply Qabs_Qle_condition.
  pose proof (scaled_mul x) as Hm. rewrite (torch_clamp_id _ _ _ A B) in Hm.
  destruct (torch_round_err (asym_scaled clip_min clip_max s x)) as [E1 E2].
  pose proof s_pos.
  unfold asym_elem, asym_code.
  assert (Hh : s / 2 == (1 # 2) * s) by (field).
  rewrite Hh.
  split; nra.
Qed.
End Asym.

(** ** Step size of valid parameters *)

Lemma pow2_ge_2 (n : Z) : (1 <= n)%Z -> (2 <= 2 ^ n)%Z.
Proof.
  intros H. replace n with (Z.succ (n - 1)) by lia.
  rewrite Z.pow_succ_r by lia.
  pose proof (Z.pow_pos_nonneg 2 (n - 1)) as P. lia.
Qed.

Lemma py_pow2_nonneg (n : Z) : (0 <= n)%Z -> py_pow2 n = inject_Z (2 ^ n).
Proof.
  intros H. unfold py_pow2. destruct (Z.leb_spec 0 n); [reflexivity | lia].
Qed.

Lemma py_pow2_minus (n : Z) (c : Z) :
  (0 <= n)%Z -> py_pow2 n - inject_Z c == inject_Z (2 ^ n - c).
Proof.
  intros H. rewrite py_pow2_nonneg by exact H.
  unfold Z.sub. rewrite inject_Z_plus, inject_Z_opp. reflexivity.
Qed.

Lemma asym_stepsize_valid (n_bit : Z) (clip_min clip_max : Q) :
  (1 <= n_bit)%Z ->
  exists s, asym_stepsize n_bit clip_min clip_max = inr s
            /\ s * inject_Z (2 ^ n_bit - 1) == clip_max - clip_min
            /\ s == (clip_max - clip_min) / inject_Z (2 ^ n_bit - 1).
Proof.
  intros Hn. pose proof (pow2_ge_2 n_bit Hn) as P.
  pose proof (py_pow2_minus n_bit 1 ltac:(lia)) as E.
  rewrite inject_Z_1 in E.
  assert (HN : 1 <= inject_Z (2 ^ n_bit - 1))
    by (rewrite <- inject_Z_1, <- Zle_Qle; lia).
  unfold asym_stepsize, py_div.
  destruct (Qeq_bool (py_pow2 n_bit - 1) 0) eqn:B.
  - apply Qeq_bool_iff in B. lra.
  - eexists. split; [reflexivity|]. rewrite E. split.
    + apply div_mul_cancel. lra.
    + reflexivity.
Qed.

Lemma simpleQuantizer_valid (input : list Q) (n_bit : Z) (clip_min clip_max : Q) :
  (1 <= n_bit)%Z ->
  exists s, asym_stepsize n_bit clip_min clip_max = inr s
            /\ s * inject_Z (2 ^ n_bit - 1) == clip_max - clip_min
            /\ s == (clip_max - clip_min) / inject_Z (2 ^ n_bit - 1)
            /\ simpleQuantizer input n_bit clip_min clip_max
               = inr (map (asym_elem clip_min clip_max s) input).
Proof.
  intros Hn. destruct (asym_stepsize_valid n_bit clip_min clip_max Hn)
    as (s & E & H1 & H2).
  exists s. repeat split; try assumption.
  unfold simpleQuantizer. rewrite E. reflexivity.
Qed.

Lemma spec_clamp_torch_clamp (x lo hi : Q) :
  lo <= hi -> spec_clamp x lo hi = torch_clamp x lo hi.
Proof.
  intros H. unfold spec_clamp, torch_clamp.
  destruct (Qlt_le_dec x lo).
  - destruct (Qlt_le_dec hi lo); [lra | reflexivity].
  - reflexivity.
Qed.

Lemma Forall2_map_r {A B : Type} (R : A -> B -> Prop) (f : A -> B) (l : list A) :
  (forall x, In x l -> R x (f x)) -> Forall2 R l (map f l).
Proof.
  induction l as [|a l IH]; intros H; simpl; constructor.
  - apply H. left. reflexivity.
  - apply IH. intros x Hx. apply H. right. exact Hx.
Qed.

Lemma inject_Z_sub (a b : Z) : inject_Z (a - b) == inject_Z a - inject_Z b.
Proof. unfold Z.sub. rewrite inject_Z_plus, inject_Z_opp. reflexivity. Qed.

(** ** Claims on the asymmetric quantizer *)

(** C1: on valid parameters ([n_bit >= 1], [clip_min < clip_max]) each
    output element of [simpleQuantizer] equals the six-step algorithm of the
    specification: zero point [clip_lower], step
    [(clip_upper - clip_lower) / (2^bit_width - 1)], clamp, scale, round,
    dequantize; the rounding [torch.round] rounds to a nearest integer. *)
Theorem simpleQuantizer_six_steps (input : list Q) (n_bit : Z) (clip_min clip_max : Q)
  (Hn : (1 <= n_bit)%Z) (Hc : clip_min < clip_max) :
  exists output,
    simpleQuantizer input n_bit clip_min clip_max = inr output
    /\ Forall2 (fun x y => y == spec_quantize_asym torch_round n_bit clip_min clip_max x)
               input output
    /\ (forall q, Qabs (inject_Z (torch_round q) - q) <= 1 # 2).
Proof.
  destruct (simpleQuantizer_valid input n_bit clip_min clip_max Hn)
    as (s & _ & _ & Hs & E).
  exists (map (asym_elem clip_min clip_max s) input). split; [exact E|]. split.
  - apply Forall2_map_r. intros x _.
    unfold spec_quantize_asym, asym_elem, asym_code, asym_scaled. cbv zeta.
    assert (Hst : (clip_max - clip_min) / (inject_Z (2 ^ n_bit) - 1) == s).
    { rewrite Hs, inject_Z_sub, inject_Z_1. reflexivity. }
    rewrite spec_clamp_torch_clamp by lra.
    rewrite (torch_round_compat
               ((torch_clamp x clip_min clip_max - clip_min)
                / ((clip_max - clip_min) / (inject_Z (2 ^ n_bit) - 1)))
               ((torch_clamp x clip_min clip_max - clip_min) / s))
      by (rewrite Hst; reflexivity).
    rewrite Hst. reflexivity.
  - intros q. apply Qabs_Qle_condition.
    destruct (torch_round_err q). split; lra.
Qed.

(** C2: on valid parameters every output element of [simpleQuantizer] lies
    in [[clip_min, clip_max]]. *)
Theorem simpleQuantizer_range (input : list Q) (n_bit : Z) (clip_min clip_max : Q)
  (Hn : (1 <= n_bit)%Z) (Hc : clip_min < clip_max) :
  exists output,
    simpleQuantizer input n_bit clip_min clip_max = inr output
    /\ Forall (fun y => clip_min <= y /\ y <= clip_max) output.
Proof.
  destruct (simpleQuantizer_valid input n_bit clip_min clip_max Hn)
    as (s & _ & Hm & _ & E).
  pose proof (pow2_ge_2 n_bit Hn) as P.
  exists (map (asym_elem clip_min clip_max s) input). split; [exact E|].
  apply Forall_forall. intros y Hy. apply in_map_iff in Hy.
  destruct Hy as (x & <- & _).
  apply (elem_range clip_min clip_max (2 ^ n_bit - 1)); [exact Hc | lia | exact Hm].
Qed.

(** C5: on valid parameters quantizing the output of [simpleQuantizer] again
    with the same parameters gives the same values (exactly, in rational
    arithmetic). *)
Theorem simpleQuantizer_idempotent (input : list Q) (n_bit : Z) (clip_min clip_max : Q)
  (Hn : (1 <= n_bit)%Z) (Hc : clip_min < clip_max) :
  exists once twice,
    simpleQuantizer input n_bit clip_min clip_max = inr once
    /\ simpleQuantizer once n_bit clip_min clip_max = inr twice
    /\ Forall2 Qeq twice once.
Proof.
  destruct (simpleQuantizer_valid input n_bit clip_min clip_max Hn)
    as (s & Es & Hm & _ & E).
  pose proof (pow2_ge_2 n_bit Hn) as P.
  set (once := map (asym_elem clip_min clip_max s) input).
  destruct (simpleQuantizer_valid once n_bit clip_min clip_max Hn)
    as (s' & Es' & _ & _ & E').
  rewrite Es in Es'. injection Es' as <-.
  exists once, (map (asym_elem clip_min clip_max s) once).
  split; [exact E|]. split; [exact E'|].
  unfold once. rewrite map_map.
  clear E E' once. induction input as [|x input IH]; simpl; constructor.
  - apply (elem_idem clip_min clip_max (2 ^ n_bit - 1)); [exact Hc | lia | exact Hm].
  - exact IH.
Qed.

(** C6: on valid parameters [simpleQuantizer] is monotone on
    [[clip_min, clip_max]]: [a <= b] gives [quantize a <= quantize b]. *)
Theorem simpleQuantizer_monotone (a b : Q) (n_bit : Z) (clip_min clip_max : Q)
  (Hn : (1 <= n_bit)%Z) (Hc : clip_min < clip_max)
  (Ha : clip_min <= a) (Hab : a <= b) (Hb : b <= clip_max) :
  exists qa qb,
    simpleQuantizer [a] n_bit clip_min clip_max = inr [qa]
    /\ simpleQuantizer [b] n_bit clip_min clip_max = inr [qb]
    /\ qa <= qb.
Proof.
  destruct (simpleQuantizer_valid [a] n_bit clip_min clip_max Hn)
    as (s & Es & Hm & _ & E).
  destruct (simpleQuantizer_valid [b] n_bit clip_min clip_max Hn)
    as (s' & Es' & _ & _ & E').
  rewrite Es in Es'. injection Es' as <-.
  pose proof (pow2_ge_2 n_bit Hn) as P.
  exists (asym_elem clip_min clip_max s a), (asym_elem clip_min clip_max s b).
  split; [exact E|]. split; [exact E'|].
  exact (elem_mono clip_min clip_max (2 ^ n_bit - 1) Hc ltac:(lia) s Hm a b Hab).
Qed.

(** C10: on valid parameters, for [x] in [[clip_min, clip_max]] the
    quantization error [|quantize x - x|] is at most half the step
    [(clip_max - clip_min) / (2^n_bit - 1)]. *)
Theorem simpleQuantizer_error_bound (x : Q) (n_bit : Z) (clip_min clip_max : Q)
  (Hn : (1 <= n_bit)%Z) (Hc : clip_min < clip_max)
  (Hx1 : clip_min <= x) (Hx2 : x <= clip_max) :
  exists stepsize q,
    asym_stepsize n_bit clip_min clip_max = inr stepsize
    /\ stepsize == (clip_max - clip_min) / inject_Z (2 ^ n_bit - 1)
    /\ simpleQuantizer [x] n_bit clip_min clip_max = inr [q]
    /\ Qabs (q - x) <= stepsize / 2.
Proof.
  destruct (simpleQuantizer_valid [x] n_bit clip_min clip_max Hn)
    as (s & Es & Hm & Hs & E).
  pose proof (pow2_ge_2 n_bit Hn) as P.
  exists s, (asym_elem clip_min clip_max s x).
  split; [exact Es|]. split; [exact Hs|]. split; [exact E|].
  apply (elem_err clip_min clip_max (2 ^ n_bit - 1)); assumption || lia.
Qed.

(** C7: [n_bit = 4], [clip_min = -2.5], [clip_max = 2.5]: the step is
    [1/3]; the input [0.0] scales to [7.5], rounds to the code [8] and comes
    out as [8 * (1/3) - 2.5 = 1/6]; the input [3.0] clamps to [2.5], scales
    to [15] and comes out as [2.5]. *)
Theorem simpleQuantizer_example_4bit :
  exists stepsize,
    asym_stepsize 4 (- (5 # 2)) (5 # 2) = inr stepsize
    /\ stepsize == 1 # 3
    /\ asym_scaled (- (5 # 2)) (5 # 2) stepsize 0 == 15 # 2
    /\ asym_code (- (5 # 2)) (5 # 2) stepsize 0 = 8%Z
    /\ asym_elem (- (5 # 2)) (5 # 2) stepsize 0 == 8 * (1 # 3) + - (5 # 2)
    /\ asym_elem (- (5 # 2)) (5 # 2) stepsize 0 == 1 # 6
    /\ torch_clamp 3 (- (5 # 2)) (5 # 2) == 5 # 2
    /\ asym_scaled (- (5 # 2)) (5 # 2) stepsize 3 == 15
    /\ asym_elem (- (5 # 2)) (5 # 2) stepsize 3 == 5 # 2
    /\ simpleQuantizer [0; 3] 4 (- (5 # 2)) (5 # 2)
       = inr [asym_elem (- (5 # 2)) (5 # 2) stepsize 0;
              asym_elem (- (5 # 2)) (5 # 2) stepsize 3].
Proof.
  eexists. split; [reflexivity|].
  repeat split; vm_compute; reflexivity.
Qed.

(** ** Witnesses of the asymmetric claims *)

Lemma simpleQuantizer_six_steps_witness :
  (1 <= 4)%Z /\ - (5 # 2) < 5 # 2 /\
  exists output,
    simpleQuantizer [0; 3] 4 (- (5 # 2)) (5 # 2) = inr output
    /\ Forall2 (fun x y => y == spec_quantize_asym torch_round 4 (- (5 # 2)) (5 # 2) x)
               [0; 3] output
    /\ (forall q, Qabs (inject_Z (torch_round q) - q) <= 1 # 2).
Proof.
  split; [lia|]. split; [vm_compute; reflexivity|].
  apply (simpleQuantizer_six_steps [0; 3] 4 (- (5 # 2)) (5 # 2));
    [lia | vm_compute; reflexivity].
Defined.

Lemma simpleQuantizer_range_witness :
  (1 <= 4)%Z /\ - (5 # 2) < 5 # 2 /\
  exists output,
    simpleQuantizer [0; 3; - 7] 4 (- (5 # 2)) (5 # 2) = inr output
    /\ Forall (fun y => - (5 # 2) <= y /\ y <= 5 # 2) output.
Proof.
  split; [lia|]. split; [vm_compute; reflexivity|].
  apply (simpleQuantizer_range [0; 3; - 7] 4 (- (5 # 2)) (5 # 2));
    [lia | vm_compute; reflexivity].
Defined.

Lemma simpleQuantizer_idempotent_witness :
  (1 <= 4)%Z /\ - (5 # 2) < 5 # 2 /\
  exists once twice,
    simpleQuantizer [0; 3; 1 # 5] 4 (- (5 # 2)) (5 # 2) = inr once
    /\ simpleQuantizer once 4 (- (5 # 2)) (5 # 2) = inr twice
    /\ Forall2 Qeq twice once.
Proof.
  split; [lia|]. split; [vm_compute; reflexivity|].
  apply (simpleQuantizer_idempotent [0; 3; 1 # 5] 4 (- (5 # 2)) (5 # 2));
    [lia | vm_compute; reflexivity].
Defined.

Lemma simpleQuantizer_monotone_witness :
  (1 <= 4)%Z /\ - (5 # 2) < 5 # 2 /\ - (5 # 2) <= 0 /\ 0 <= 1 # 5 /\ 1 # 5 <= 5 # 2 /\
  exists qa qb,
    simpleQuantizer [0] 4 (- (5 # 2)) (5 # 2) = inr [qa]
    /\ simpleQuantizer [1 # 5] 4 (- (5 # 2)) (5 # 2) = inr [qb]
    /\ qa <= qb.
Proof.
  split; [lia|]. split; [vm_compute; reflexivity|].
  split; [vm_compute; discriminate|]. split; [vm_compute; discriminate|].
  split; [vm_compute; discriminate|].
  apply (simpleQuantizer_monotone 0 (1 # 5) 4 (- (5 # 2)) (5 # 2));
    [lia | vm_compute; reflexivity | vm_compute; discriminate
    | vm_compute; discriminate | vm_compute; discriminate].
Defined.

Lemma simpleQuantizer_error_bound_witness :
  (1 <= 4)%Z /\ - (5 # 2) < 5 # 2 /\ - (5 # 2) <= 0 /\ 0 <= 5 # 2 /\
  exists stepsize q,
    asym_stepsize 4 (- (5 # 2)) (5 # 2) = inr stepsize
    /\ stepsize == ((5 # 2) - - (5 # 2)) / inject_Z (2 ^ 4 - 1)
    /\ simpleQuantizer [0] 4 (- (5 # 2)) (5 # 2) = inr [q]
    /\ Qabs (q - 0) <= stepsize / 2.
Proof.
  split; [lia|]. split; [vm_compute; reflexivity|].
  split; [vm_compute; discriminate|]. split; [vm_compute; discriminate|].
  apply (simpleQuantizer_error_bound 0 4 (- (5 # 2)) (5 # 2));
    [lia | vm_compute; reflexivity | vm_compute; discriminate
    | vm_compute; discriminate].
Defined.

(** ** Parameter checking *)





(** ** The symmetric quantizer: parameters and ties *)

Lemma py_max_Qmax (a b : Q) : py_max a b == Qmax a b.
Proof.
  unfold py_max. destruct (Qlt_le_dec a b).
  - rewrite Q.max_r; [reflexivity | lra].
  - rewrite Q.max_l; [reflexivity | exact q].
Qed.

Lemma sym_nbins_valid (n_bit : Z) :
  (0 <= n_bit)%Z -> sym_nbins n_bit == inject_Z (2 ^ n_bit - 2).
Proof. intros H. exact (py_pow2_minus n_bit 2 H). Qed.

(** C8: the symmetric quantizer uses [clip_min_i = -max(clip_max, |clip_min|)],
    zero point [0] and scale [(clip_max - clip_min_i) / (2^n_bit - 2)]; with
    [n_bit = 4], [clip_min = -2.5], [clip_max = 2.5] the scale is [5/14] and
    the input [0.0] gets the code [0] and comes out as [0]. *)
Theorem sym_quantizer_parameters :
  (forall n_bit clip_min clip_max,
      (2 <= n_bit)%Z ->
      sym_clip_min clip_min clip_max == - Qmax clip_max (Qabs clip_min)
      /\ sym_zp == 0
      /\ sym_scale n_bit clip_min clip_max
         == (clip_max - sym_clip_min clip_min clip_max) / inject_Z (2 ^ n_bit - 2))
  /\ sym_clip_min (- (5 # 2)) (5 # 2) == - (5 # 2)
  /\ sym_scale 4 (- (5 # 2)) (5 # 2) == 5 # 14
  /\ sym_code 4 (- (5 # 2)) (5 # 2) 0 = 0%Z
  /\ sym_elem 4 (- (5 # 2)) (5 # 2) 0 == 0
  /\ symQuantizer [0] 4 (- (5 # 2)) (5 # 2) = [sym_elem 4 (- (5 # 2)) (5 # 2) 0].
Proof.
  split.
  - intros n_bit clip_min clip_max Hn. split; [|split].
    + unfold sym_clip_min. rewrite py_max_Qmax. reflexivity.
    + reflexivity.
    + unfold sym_scale. rewrite (sym_nbins_valid n_bit ltac:(lia)). reflexivity.
  - repeat split; vm_compute; reflexivity.
Qed.

Lemma sym_quantizer_parameters_witness :
  (2 <= 4)%Z /\
  sym_clip_min (- (5 # 2)) (5 # 2) == - Qmax (5 # 2) (Qabs (- (5 # 2)))
  /\ sym_zp == 0
  /\ sym_scale 4 (- (5 # 2)) (5 # 2)
     == ((5 # 2) - sym_clip_min (- (5 # 2)) (5 # 2)) / inject_Z (2 ^ 4 - 2).
Proof.
  destruct sym_quantizer_parameters as [A _].
  split; [lia|]. apply (A 4%Z); lia.
Defined.

Lemma torch_round_half (q : Q) (k : Z) :
  q == inject_Z k + (1 # 2) ->
  torch_round q = (if Z.even k then k else k + 1)%Z.
Proof.
  intros Hq. apply torch_round_unique. unfold nearest_even.
  destruct (Z.even k) eqn:Ev.
  - right. split; [right; lra | exact Ev].
  - right. split.
    + left. rewrite inject_Z_plus, inject_Z_1. lra.
    + rewrite Z.even_add, Ev. reflexivity.
Qed.

(** C9 as stated fails: [torch.round] sends the tie [6.5] to [6], not [7]
    ([n_bit = 4], [clip_min = 0], [clip_max = 15], step [1], input [6.5]),
    and the symmetric quantizer sends the tie [-6.5] to [-6], not [-7]
    ([n_bit = 4], [clip_min = -7], [clip_max = 7], scale [1], input
    [-6.5]). *)
Lemma quantizer_tie_not_away_from_zero :
  exists stepsize,
    asym_stepsize 4 0 15 = inr stepsize
    /\ asym_scaled 0 15 stepsize (13 # 2) == 13 # 2
    /\ asym_code 0 15 stepsize (13 # 2) = 6%Z
    /\ asym_code 0 15 stepsize (13 # 2) <> 7%Z
    /\ simpleQuantizer [13 # 2] 4 0 15 = inr [asym_elem 0 15 stepsize (13 # 2)]
    /\ asym_elem 0 15 stepsize (13 # 2) == 6
    /\ (torch_clamp (- (13 # 2)) (-7) 7 - sym_zp) / sym_scale 4 (-7) 7 == - (13 # 2)
    /\ sym_code 4 (-7) 7 (- (13 # 2)) = (-6)%Z
    /\ sym_code 4 (-7) 7 (- (13 # 2)) <> (-7)%Z.
Proof.
  eexists. split; [reflexivity|].
  repeat split; vm_compute; try reflexivity; discriminate.
Qed.

(** C9 (amended): the rounding step is [torch.round] ([np.round] in the
    symmetric quantizer), which breaks ties to the even integer: a scaled
    value [k + 1/2] gets the code [k] when [k] is even and [k + 1] when [k]
    is odd (6.5 gives 6, 7.5 gives 8, -6.5 gives -6). *)
Theorem quantizer_round_half_even :
  (forall n_bit clip_min clip_max stepsize y k,
      asym_stepsize n_bit clip_min clip_max = inr stepsize ->
      asym_scaled clip_min clip_max stepsize y == inject_Z k + (1 # 2) ->
      asym_code clip_min clip_max stepsize y = (if Z.even k then k else k + 1)%Z
      /\ simpleQuantizer [y] n_bit clip_min clip_max
         = inr [inject_Z (if Z.even k then k else k + 1) * stepsize + clip_min])
  /\ (forall n_bit clip_min clip_max x k,
      (torch_clamp x clip_min clip_max - sym_zp) / sym_scale n_bit clip_min clip_max
        == inject_Z k + (1 # 2) ->
      sym_code n_bit clip_min clip_max x = (if Z.even k then k else k + 1)%Z).
Proof.
  split.
  - intros n_bit clip_min clip_max stepsize y k Es Hk.
    assert (Hc : asym_code clip_min clip_max stepsize y
                 = (if Z.even k then k else k + 1)%Z)
      by (apply torch_round_half; exact Hk).
    split; [exact Hc|].
    unfold simpleQuantizer. rewrite Es. simpl.
    unfold ret, asym_elem. rewrite Hc. reflexivity.
  - intros n_bit clip_min clip_max x k Hk.
    apply torch_round_half. exact Hk.
Qed.

Lemma quantizer_round_half_even_witness :
  (asym_stepsize 4 0 15 = inr (15 / 15)
   /\ asym_scaled 0 15 (15 / 15) (13 # 2) == inject_Z 6 + (1 # 2)
   /\ asym_code 0 15 (15 / 15) (13 # 2) = 6%Z
   /\ simpleQuantizer [13 # 2] 4 0 15 = inr [inject_Z 6 * (15 / 15) + 0])
  /\ ((torch_clamp (- (13 # 2)) (-7) 7 - sym_zp) / sym_scale 4 (-7) 7
        == inject_Z (-7) + (1 # 2)
      /\ sym_code 4 (-7) 7 (- (13 # 2)) = (-6)%Z).
Proof.
  destruct quantizer_round_half_even as [A B].
  split.
  - assert (Es : asym_stepsize 4 0 15 = inr (15 / 15)) by reflexivity.
    assert (Hk : asym_scaled 0 15 (15 / 15) (13 # 2) == inject_Z 6 + (1 # 2))
      by (vm_compute; reflexivity).
    destruct (A 4%Z 0 15 (15 / 15) (13 # 2) 6%Z Es Hk) as [C D].
    split; [exact Es|]. split; [exact Hk|]. split; [exact C | exact D].
  - assert (Hk : (torch_clamp (- (13 # 2)) (-7) 7 - sym_zp) / sym_scale 4 (-7) 7
                 == inject_Z (-7) + (1 # 2)) by (vm_compute; reflexivity).
    split; [exact Hk|]. exact (B 4%Z (-7) 7 (- (13 # 2)) (-7)%Z Hk).
Defined.

(** ** Distinct values *)

Lemma distinct_values_bound (l : list Q) (f : Z -> Q) (codes : list Z) :
  (forall y, In y l -> exists c, In c codes /\ y == f c) ->
  (length (distinct_values l) <= length codes)%nat.
Proof.
  intros H. unfold distinct_values.
  rewrite <- (length_map (fun c => Qred (f c)) codes).
  apply NoDup_incl_length; [apply NoDup_nodup|].
  intros a Ha. apply nodup_In, in_map_iff in Ha.
  destruct Ha as (y & <- & Hy).
  destruct (H y Hy) as (c & Hc & E).
  apply in_map_iff. exists c. split; [|exact Hc].
  symmetry. apply Qred_complete. exact E.
Qed.

Lemma in_code_range (base : Z) (len : nat) (c : Z) :
  (base <= c < base + Z.of_nat len)%Z ->
  In c (map (fun k => base + Z.of_nat k)%Z (seq 0 len)).
Proof.
  intros H. apply in_map_iff. exists (Z.to_nat (c - base)).
  split; [lia|]. apply in_seq. lia.
Qed.

Lemma code_range_length (base : Z) (len : nat) :
  length (map (fun k => base + Z.of_nat k)%Z (seq 0 len)) = len.
Proof. rewrite length_map, length_seq. reflexivity. Qed.

Lemma simpleQuantizer_distinct (input : list Q) (n_bit : Z) (clip_min clip_max : Q) :
  (1 <= n_bit)%Z -> clip_min < clip_max ->
  exists output,
    simpleQuantizer input n_bit clip_min clip_max = inr output
    /\ (length (distinct_values output) <= Z.to_nat (2 ^ n_bit))%nat.
Proof.
  intros Hn Hc.
  destruct (simpleQuantizer_valid input n_bit clip_min clip_max Hn)
    as (s & _ & Hm & _ & E).
  pose proof (pow2_ge_2 n_bit Hn) as P.
  eexists. split; [exact E|].
  rewrite <- (code_range_length 0 (Z.to_nat (2 ^ n_bit))).
  apply (distinct_values_bound _ (fun c => inject_Z c * s + clip_min)).
  intros y Hy. apply in_map_iff in Hy. destruct Hy as (x & <- & _).
  exists (asym_code clip_min clip_max s x). split; [|reflexivity].
  apply in_code_range.
  pose proof (code_range clip_min clip_max (2 ^ n_bit - 1) Hc ltac:(lia) s Hm x).
  lia.
Qed.

Lemma pow2_even_minus_2 (n : Z) :
  (1 <= n)%Z -> (2 ^ n - 2 = 2 * (2 ^ (n - 1) - 1))%Z.
Proof.
  intros H. replace n with (Z.succ (n - 1)) at 1 by lia.
  rewrite Z.pow_succ_r by lia. lia.
Qed.

Lemma py_max_bounds (a b : Q) : a <= py_max a b /\ b <= py_max a b.
Proof. unfold py_max. destruct (Qlt_le_dec a b); lra. Qed.

(** On valid parameters the codes of the symmetric quantizer lie in a range
    of [2^n_bit - 1] consecutive integers. *)
Lemma sym_code_range (n_bit : Z) (clip_min clip_max : Q) :
  (2 <= n_bit)%Z -> clip_min < clip_max ->
  exists r0, forall x,
    (r0 <= sym_code n_bit clip_min clip_max x <= r0 + (2 ^ n_bit - 2))%Z.
Proof.
  intros Hn Hc.
  set (M := py_max clip_max (Qabs clip_min)).
  destruct (py_max_bounds clip_max (Qabs clip_min)) as [HM1 HM2]. fold M in HM1, HM2.
  assert (HM3 : - clip_min <= M).
  { pose proof (Qle_Qabs (- clip_min)) as A. rewrite Qabs_opp in A. lra. }
  set (sc := sym_scale n_bit clip_min clip_max).
  pose proof (pow2_ge_2 (n_bit - 1) ltac:(lia)) as P.
  pose proof (pow2_even_minus_2 n_bit ltac:(lia)) as E2.
  assert (HL : 2 <= inject_Z (2 ^ n_bit - 2)).
  { change 2 with (inject_Z 2). rewrite <- Zle_Qle. lia. }
  assert (Hsc : sc * inject_Z (2 ^ n_bit - 2) == clip_max + M).
  { unfold sc, sym_scale. rewrite (sym_nbins_valid n_bit ltac:(lia)).
    rewrite div_mul_cancel by lra. unfold sym_clip_min. fold M. ring. }
  assert (Hpos : 0 < sc) by nra.
  set (u := clip_min / sc).
  assert (Hu : u * sc == clip_min) by (apply div_mul_cancel; lra).
  exists (torch_round u). intros x.
  unfold sym_code. fold sc.
  set (t := (torch_clamp x clip_min clip_max - sym_zp) / sc).
  assert (Ht : t * sc == torch_clamp x clip_min clip_max - sym_zp)
    by (apply div_mul_cancel; lra).
  destruct (torch_clamp_range x clip_min clip_max) as [C1 C2]; [lra|].
  unfold sym_zp in Ht.
  split.
  - apply torch_round_mono. nra.
  - rewrite E2, <- torch_round_shift_even. apply torch_round_mono.
    rewrite <- E2. nra.
Qed.

Lemma symQuantizer_distinct (raw : list Q) (n_bit : Z) (clip_min clip_max : Q) :
  (2 <= n_bit)%Z -> clip_min < clip_max ->
  (length (distinct_values (symQuantizer raw n_bit clip_min clip_max))
   <= Z.to_nat (2 ^ n_bit - 1))%nat.
Proof.
  intros Hn Hc.
  destruct (sym_code_range n_bit clip_min clip_max Hn Hc) as (r0 & Hr).
  pose proof (pow2_ge_2 n_bit ltac:(lia)) as P.
  rewrite <- (code_range_length r0 (Z.to_nat (2 ^ n_bit - 1))).
  apply (distinct_values_bound _
           (fun c => inject_Z c * sym_scale n_bit clip_min clip_max + sym_zp)).
  intros y Hy. unfold symQuantizer in Hy. apply in_map_iff in Hy.
  destruct Hy as (x & <- & _).
  exists (sym_code n_bit clip_min clip_max x). split; [|reflexivity].
  apply in_code_range. specialize (Hr x). lia.
Qed.

(** C4 as stated fails for the symmetric quantizer: with [n_bit = 4],
    [clip_min = -2.5], [clip_max = 2.5] the inputs [k * 5/14] for
    [k = -7 .. 7] give 15 distinct outputs, more than [2^4 - 2 = 14]. *)
Lemma symQuantizer_fifteen_levels :
  let raw := map (fun i => inject_Z (Z.of_nat i - 7) * (5 # 14)) (seq 0 15) in
  length (distinct_values (symQuantizer raw 4 (- (5 # 2)) (5 # 2))) = 15%nat
  /\ (Z.to_nat (2 ^ 4 - 2) < 15)%nat.
Proof. split; vm_compute; [reflexivity | lia]. Qed.

(** ** Extra: the clipping cells *)

Lemma combine_map_self {A B : Type} (f : A -> B) (l : list A) :
  combine l (map f l) = map (fun x => (x, f x)) l.
Proof. induction l as [|a l IH]; simpl; [reflexivity | rewrite IH; reflexivity]. Qed.

Lemma sq_diff_map (f : Q -> Q) (l : list Q) :
  sq_diff l (map f l) = map (fun x => (x - f x) * (x - f x)) l.
Proof. unfold sq_diff. rewrite combine_map_self, map_map. reflexivity. Qed.

Lemma is_clipped_false (clip_min clip_max x : Q) :
  is_clipped clip_min clip_max x = false <-> clip_min <= x /\ x <= clip_max.
Proof.
  unfold is_clipped.
  destruct (Qlt_le_dec clip_max x); destruct (Qlt_le_dec x clip_min); simpl;
    split; intros H; try discriminate; try lra; reflexivity.
Qed.

(** X1: [np.clip] changes exactly the elements that [isClipped] flags: an
    unflagged element is kept, a flagged one is moved to a different value,
    namely the bound it crosses. *)
Theorem np_clip_is_clipped (raw : list Q) (clip_min clip_max : Q)
  (Hc : clip_min <= clip_max) :
  Forall2 (fun x c =>
             (is_clipped clip_min clip_max x = false <-> c == x)
             /\ (clip_max < x -> c = clip_max)
             /\ (x < clip_min -> c = clip_min))
          raw (np_clip raw clip_min clip_max).
Proof.
  unfold np_clip. apply Forall2_map_r. intros x _.
  rewrite is_clipped_false. unfold torch_clamp.
  destruct (Qlt_le_dec x clip_min) as [L|L];
    destruct (Qlt_le_dec clip_max _) as [U|U];
    repeat split; intros; try lra; reflexivity.
Qed.

Lemma np_clip_is_clipped_witness :
  -1 <= 1 /\
  Forall2 (fun x c =>
             (is_clipped (-1) 1 x = false <-> c == x)
             /\ (1 < x -> c = 1)
             /\ (x < -1 -> c = -1))
          [-3; 0; 2] (np_clip [-3; 0; 2] (-1) 1).
Proof.
  split; [vm_compute; discriminate|].
  apply np_clip_is_clipped. vm_compute. discriminate.
Defined.

Lemma sq_nonneg (a : Q) : 0 <= a * a.
Proof. destruct (Qlt_le_dec a 0); nra. Qed.

Lemma sq_zero (a : Q) : a * a == 0 -> a == 0.
Proof. intros H. destruct (Qlt_le_dec a 0); [nra|]. destruct (Qlt_le_dec 0 a); nra. Qed.

Lemma sum_nonneg (l : list Q) :
  Forall (fun q => 0 <= q) l -> 0 <= fold_right Qplus 0 l.
Proof.
  induction l as [|a l IH]; intros H; simpl; [lra|].
  inversion H; subst. specialize (IH H3). lra.
Qed.

Lemma sum_nonneg_zero (l : list Q) :
  Forall (fun q => 0 <= q) l ->
  (fold_right Qplus 0 l == 0 <-> Forall (fun q => q == 0) l).
Proof.
  induction l as [|a l IH]; intros H; simpl.
  - split; intros; [constructor | reflexivity].
  - inversion H; subst. pose proof (sum_nonneg l H3) as S.
    destruct (IH H3) as [I1 I2]. split.
    + intros E. constructor; [lra|]. apply I1. lra.
    + intros F. inversion F; subst. specialize (I2 H5). lra.
Qed.

Lemma length_pos_Q {A : Type} (l : list A) :
  l <> [] -> 1 <= inject_Z (Z.of_nat (length l)).
Proof.
  intros H. destruct l as [|a l]; [congruence|].
  rewrite <- inject_Z_1, <- Zle_Qle. simpl length. lia.
Qed.

Lemma np_mean_some (l : list Q) :
  l <> [] ->
  exists m, np_mean l = Some m
            /\ m * inject_Z (Z.of_nat (length l)) == fold_right Qplus 0 l.
Proof.
  intros H. pose proof (length_pos_Q l H) as P.
  destruct l as [|a t]; [congruence|].
  eexists. split; [reflexivity|]. apply div_mul_cancel. lra.
Qed.

(** X2: the clipping error [np.mean((raw_data-clipped_data)**2)] of a non-empty
    array is non-negative, and it is zero exactly when no element is
    flagged by [isClipped]. *)
Theorem clip_mse_zero_iff (raw : list Q) (clip_min clip_max : Q)
  (Hc : clip_min <= clip_max) (Hne : raw <> []) :
  exists m, clip_mse raw clip_min clip_max = Some m
            /\ 0 <= m
            /\ (m == 0 <-> Forall (fun x => is_clipped clip_min clip_max x = false) raw).
Proof.
  unfold clip_mse, np_clip. rewrite sq_diff_map.
  assert (Hne' : map (fun x => (x - torch_clamp x clip_min clip_max)
                               * (x - torch_clamp x clip_min clip_max)) raw <> [])
    by (destruct raw; simpl; congruence).
  destruct (np_mean_some _ Hne') as (m & E & Hm).
  rewrite length_map in Hm.
  pose proof (length_pos_Q raw Hne) as P.
  assert (Hsq : Forall (fun q => 0 <= q)
                  (map (fun x => (x - torch_clamp x clip_min clip_max)
                                 * (x - torch_clamp x clip_min clip_max)) raw)).
  { apply Forall_forall. intros q Hq. apply in_map_iff in Hq.
    destruct Hq as (x & <- & _). apply sq_nonneg. }
  pose proof (sum_nonneg _ Hsq) as S.
  destruct (sum_nonneg_zero _ Hsq) as [Z1 Z2].
  exists m. split; [exact E|]. split; [nra|]. split.
  - intros Hm0. assert (Hs0 : fold_right Qplus 0
        (map (fun x => (x - torch_clamp x clip_min clip_max)
                       * (x - torch_clamp x clip_min clip_max)) raw) == 0)
      by (rewrite <- Hm, Hm0; ring).
    specialize (Z1 Hs0). apply Forall_forall. intros x Hx.
    rewrite Forall_forall in Z1.
    specialize (Z1 _ (in_map _ _ _ Hx)). simpl in Z1.
    apply is_clipped_false.
    destruct (torch_clamp_range x clip_min clip_max Hc).
    pose proof (sq_zero _ Z1) as D.
    unfold torch_clamp in *.
    destruct (Qlt_le_dec x clip_min); destruct (Qlt_le_dec clip_max _); lra.
  - intros F. assert (Hs0 : fold_right Qplus 0
        (map (fun x => (x - torch_clamp x clip_min clip_max)
                       * (x - torch_clamp x clip_min clip_max)) raw) == 0).
    { apply Z2. apply Forall_forall. intros q Hq. apply in_map_iff in Hq.
      destruct Hq as (x & <- & Hx). rewrite Forall_forall in F.
      specialize (F x Hx). apply is_clipped_false in F. destruct F as [F1 F2].
      rewrite (torch_clamp_id x clip_min clip_max F1 F2). ring. }
    rewrite Hs0 in Hm. nra.
Qed.

Lemma clip_mse_zero_iff_witness :
  -1 <= 1 /\ [-3; 0; 2] <> [] /\
  exists m, clip_mse [-3; 0; 2] (-1) 1 = Some m
            /\ 0 <= m
            /\ (m == 0 <-> Forall (fun x => is_clipped (-1) 1 x = false) [-3; 0; 2]).
Proof.
  split; [vm_compute; discriminate|]. split; [discriminate|].
  apply clip_mse_zero_iff; [vm_compute; discriminate | discriminate].
Defined.

(** ** Extra: the step-by-step walkthrough and [simpleQuantizer] *)

(** X3: on valid parameters the walkthrough cells map the data into
    [[0, 2^n_bit - 1]] ([y_scaled]), give integer codes in the same range
    ([y_int]), and dequantize to exactly what [simpleQuantizer] returns on
    the raw data ([yq]). *)
Theorem tutorial_quantize_simpleQuantizer (raw : list Q) (n_bit : Z) (clip_min clip_max : Q)
  (Hn : (1 <= n_bit)%Z) (Hc : clip_min < clip_max) :
  exists y_scaled y_int yq,
    tutorial_quantize raw n_bit clip_min clip_max = inr (y_scaled, y_int, yq)
    /\ Forall (fun v => 0 <= v /\ v <= inject_Z (2 ^ n_bit - 1)) y_scaled
    /\ Forall (fun k => 0 <= k <= 2 ^ n_bit - 1)%Z y_int
    /\ simpleQuantizer raw n_bit clip_min clip_max = inr yq.
Proof.
  destruct (simpleQuantizer_valid raw n_bit clip_min clip_max Hn)
    as (s & Es & Hm & _ & E).
  pose proof (pow2_ge_2 n_bit Hn) as P.
  unfold tutorial_quantize.
  assert (Es' : py_div (clip_max - clip_min) (py_pow2 n_bit - 1) = inr s) by exact Es.
  rewrite Es'. simpl. unfold ret.
  eexists _, _, _. split; [reflexivity|]. split; [|split].
  - apply Forall_forall. intros v Hv. unfold np_clip in Hv.
    rewrite map_map in Hv. apply in_map_iff in Hv. destruct Hv as (x & <- & _).
    exact (scaled_range clip_min clip_max (2 ^ n_bit - 1) Hc ltac:(lia) s Hm x).
  - apply Forall_forall. intros k Hk. unfold np_clip in Hk.
    rewrite !map_map in Hk. apply in_map_iff in Hk. destruct Hk as (x & <- & _).
    exact (code_range clip_min clip_max (2 ^ n_bit - 1) Hc ltac:(lia) s Hm x).
  - rewrite E. unfold np_clip. rewrite !map_map. reflexivity.
Qed.

Lemma tutorial_quantize_simpleQuantizer_witness :
  (1 <= 4)%Z /\ - (5 # 2) < 5 # 2 /\
  exists y_scaled y_int yq,
    tutorial_quantize [0; 3; - 7] 4 (- (5 # 2)) (5 # 2) = inr (y_scaled, y_int, yq)
    /\ Forall (fun v => 0 <= v /\ v <= inject_Z (2 ^ 4 - 1)) y_scaled
    /\ Forall (fun k => 0 <= k <= 2 ^ 4 - 1)%Z y_int
    /\ simpleQuantizer [0; 3; - 7] 4 (- (5 # 2)) (5 # 2) = inr yq.
Proof.
  split; [lia|]. split; [vm_compute; reflexivity|].
  apply tutorial_quantize_simpleQuantizer; [lia | vm_compute; reflexivity].
Defined.

Lemma NoDup_map_injective {A B : Type} (f : A -> B) (l : list A) :
  (forall x y, f x = f y -> x = y) -> NoDup l -> NoDup (map f l).
Proof.
  intros Hf Hl. induction Hl as [|a l Ha Hl IH]; simpl; constructor; [|exact IH].
  intros Hin. apply in_map_iff in Hin. destruct Hin as (b & Eb & Hb).
  apply Hf in Eb. subst b. contradiction.
Qed.

(** The representable levels [clip_min + k * stepsize], [k = 0 .. 2^n_bit - 1]. *)
Lemma level_elem (clip_min clip_max s : Q) (NZ k : Z) :
  clip_min < clip_max -> (1 <= NZ)%Z -> s * inject_Z NZ == clip_max - clip_min ->
  (0 <= k <= NZ)%Z ->
  asym_elem clip_min clip_max s (inject_Z k * s + clip_min) == inject_Z k * s + clip_min.
Proof.
  intros Hc HN Hm Hk.
  assert (Hpos : 0 < s) by exact (s_pos clip_min clip_max NZ Hc HN s Hm).
  destruct Hk as [K1 K2]. rewrite Zle_Qle, inject_Z_0 in K1. rewrite Zle_Qle in K2.
  assert (R1 : clip_min <= inject_Z k * s + clip_min) by nra.
  assert (R2 : inject_Z k * s + clip_min <= clip_max) by nra.
  unfold asym_elem, asym_code, asym_scaled.
  rewrite (torch_clamp_id _ _ _ R1 R2).
  rewrite (torch_round_compat _ (inject_Z k)), torch_round_Z; [reflexivity|].
  field. lra.
Qed.

(** X4: the bound of [2^n_bit] distinct values (the "Expected: 2 ** n_bit" of
    the tutorial) is reached: on valid parameters, quantizing the [2^n_bit]
    levels [clip_min + k * stepsize] gives exactly [2^n_bit] distinct
    values. *)
Theorem simpleQuantizer_all_levels (n_bit : Z) (clip_min clip_max : Q)
  (Hn : (1 <= n_bit)%Z) (Hc : clip_min < clip_max) :
  exists stepsize output,
    asym_stepsize n_bit clip_min clip_max = inr stepsize
    /\ simpleQuantizer
         (map (fun k => inject_Z (Z.of_nat k) * stepsize + clip_min)
              (seq 0 (Z.to_nat (2 ^ n_bit))))
         n_bit clip_min clip_max = inr output
    /\ length (distinct_values output) = Z.to_nat (2 ^ n_bit).
Proof.
  set (levels s := map (fun k => inject_Z (Z.of_nat k) * s + clip_min)
                       (seq 0 (Z.to_nat (2 ^ n_bit)))).
  destruct (asym_stepsize_valid n_bit clip_min clip_max Hn) as (s & Es & Hm & _).
  pose proof (pow2_ge_2 n_bit Hn) as P.
  assert (Hpos : 0 < s) by exact (s_pos clip_min clip_max (2 ^ n_bit - 1) Hc ltac:(lia) s Hm).
  exists s, (map (asym_elem clip_min clip_max s) (levels s)).
  split; [exact Es|]. split.
  - unfold simpleQuantizer. rewrite Es. reflexivity.
  - unfold distinct_values.
    assert (Hr : map Qred (map (asym_elem clip_min clip_max s) (levels s))
                 = map Qred (levels s)).
    { rewrite map_map. apply map_ext_in. intros y Hy.
      unfold levels in Hy. apply in_map_iff in Hy. destruct Hy as (k & <- & Hk).
      apply in_seq in Hk.
      apply Qred_complete. apply (level_elem clip_min clip_max s (2 ^ n_bit - 1));
        [exact Hc | lia | exact Hm | lia]. }
    rewrite Hr.
    assert (Hnd : NoDup (map Qred (levels s))).
    { unfold levels. rewrite map_map. apply NoDup_map_injective;
        [|apply seq_NoDup].
      intros k1 k2 Ek.
      assert (Eq : inject_Z (Z.of_nat k1) * s + clip_min
                   == inject_Z (Z.of_nat k2) * s + clip_min).
      { rewrite <- (Qred_correct (inject_Z (Z.of_nat k1) * s + clip_min)),
                <- (Qred_correct (inject_Z (Z.of_nat k2) * s + clip_min)).
        rewrite Ek. reflexivity. }
      assert (Eq' : (inject_Z (Z.of_nat k1) - inject_Z (Z.of_nat k2)) * s == 0).
      { transitivity ((inject_Z (Z.of_nat k1) * s + clip_min)
                      - (inject_Z (Z.of_nat k2) * s + clip_min)); [ring | lra]. }
      apply Qmult_integral in Eq'. destruct Eq' as [Eq' | Eq']; [|lra].
      assert (Hz : inject_Z (Z.of_nat k1) == inject_Z (Z.of_nat k2) + inject_Z 0)
        by (rewrite inject_Z_0; lra).
      apply Q_to_Z_eq in Hz. lia. }
    rewrite (nodup_fixed_point Q_eq_dec Hnd).
    unfold levels. rewrite !length_map, length_seq. reflexivity.
Qed.

Lemma simpleQuantizer_all_levels_witness :
  (1 <= 4)%Z /\ - (5 # 2) < 5 # 2 /\
  exists stepsize output,
    asym_stepsize 4 (- (5 # 2)) (5 # 2) = inr stepsize
    /\ simpleQuantizer
         (map (fun k => inject_Z (Z.of_nat k) * stepsize + - (5 # 2))
              (seq 0 (Z.to_nat (2 ^ 4))))
         4 (- (5 # 2)) (5 # 2) = inr output
    /\ length (distinct_values output) = Z.to_nat (2 ^ 4).
Proof.
  split; [lia|]. split; [vm_compute; reflexivity|].
  apply simpleQuantizer_all_levels; [lia | vm_compute; reflexivity].
Defined.

(** ** Extra: [PlotAndCompare] on raw and quantized data *)

Lemma sum_le_bound (l : list Q) (B : Q) :
  Forall (fun q => q <= B) l ->
  fold_right Qplus 0 l <= inject_Z (Z.of_nat (length l)) * B.
Proof.
  induction l as [|a l IH]; intros H.
  - simpl. rewrite inject_Z_0. lra.
  - inversion H; subst. specialize (IH H3).
    change (fold_right Qplus 0 (a :: l)) with (a + fold_right Qplus 0 l).
    change (length (a :: l)) with (S (length l)).
    rewrite Nat2Z.inj_succ, <- Z.add_1_r, inject_Z_plus, inject_Z_1. lra.
Qed.

Lemma np_mean_bounds (l : list Q) (B : Q) :
  l <> [] -> Forall (fun q => 0 <= q /\ q <= B) l ->
  exists m, np_mean l = Some m /\ 0 <= m /\ m <= B.
Proof.
  intros Hne H. destruct (np_mean_some l Hne) as (m & E & Hm).
  pose proof (length_pos_Q l Hne) as P.
  assert (H1 : Forall (fun q => 0 <= q) l)
    by (eapply Forall_impl; [|exact H]; intros q [A _]; exact A).
  assert (H2 : Forall (fun q => q <= B) l)
    by (eapply Forall_impl; [|exact H]; intros q [_ A]; exact A).
  pose proof (sum_nonneg l H1). pose proof (sum_le_bound l B H2).
  exists m. split; [exact E|]. split; nra.
Qed.

(** X5: on valid parameters, for a non-empty tensor [d] whose elements lie in
    [[clip_min, clip_max]], the MSE that [PlotAndCompare] reports between
    [d] and [simpleQuantizer(d, ...)] is at most [(stepsize / 2)^2]. *)
Theorem PlotAndCompare_mse_bound (d : list Q) (n_bit : Z) (clip_min clip_max : Q)
  (Hn : (1 <= n_bit)%Z) (Hc : clip_min < clip_max) (Hne : d <> [])
  (Hd : Forall (fun x => clip_min <= x /\ x <= clip_max) d) :
  exists stepsize output mse,
    asym_stepsize n_bit clip_min clip_max = inr stepsize
    /\ simpleQuantizer d n_bit clip_min clip_max = inr output
    /\ mse_loss d output = Some mse
    /\ 0 <= mse /\ mse <= (stepsize / 2) * (stepsize / 2).
Proof.
  destruct (simpleQuantizer_valid d n_bit clip_min clip_max Hn)
    as (s & Es & Hm & _ & E).
  pose proof (pow2_ge_2 n_bit Hn) as P.
  pose proof (s_pos clip_min clip_max (2 ^ n_bit - 1) Hc ltac:(lia) s Hm) as Hpos.
  destruct (np_mean_bounds
              (map (fun x => (x - asym_elem clip_min clip_max s x)
                             * (x - asym_elem clip_min clip_max s x)) d)
              ((s / 2) * (s / 2))) as (m & Em & M1 & M2).
  - destruct d; simpl; congruence.
  - apply Forall_forall. intros q Hq. apply in_map_iff in Hq.
    destruct Hq as (x & <- & Hx). rewrite Forall_forall in Hd.
    destruct (Hd x Hx) as [A B].
    pose proof (elem_err clip_min clip_max (2 ^ n_bit - 1) Hc ltac:(lia) s Hm x A B)
      as Er.
    apply Qabs_Qle_condition in Er. destruct Er as [Er1 Er2].
    split; [apply sq_nonneg | nra].
  - exists s, (map (asym_elem clip_min clip_max s) d), m.
    split; [exact Es|]. split; [exact E|].
    split; [unfold mse_loss; rewrite sq_diff_map; exact Em|]. split; assumption.
Qed.

Lemma PlotAndCompare_mse_bound_witness :
  (1 <= 4)%Z /\ - (5 # 2) < 5 # 2 /\ [0; 1 # 5; - 2] <> [] /\
  Forall (fun x => - (5 # 2) <= x /\ x <= 5 # 2) [0; 1 # 5; - 2] /\
  exists stepsize output mse,
    asym_stepsize 4 (- (5 # 2)) (5 # 2) = inr stepsize
    /\ simpleQuantizer [0; 1 # 5; - 2] 4 (- (5 # 2)) (5 # 2) = inr output
    /\ mse_loss [0; 1 # 5; - 2] output = Some mse
    /\ 0 <= mse /\ mse <= (stepsize / 2) * (stepsize / 2).
Proof.
  assert (Hd : Forall (fun x => - (5 # 2) <= x /\ x <= 5 # 2) [0; 1 # 5; - 2])
    by (repeat constructor; vm_compute; discriminate).
  split; [lia|]. split; [vm_compute; reflexivity|]. split; [discriminate|].
  split; [exact Hd|].
  apply PlotAndCompare_mse_bound; [lia | vm_compute; reflexivity | discriminate | exact Hd].
Defined.

(** ** Extra: the symmetric quantizer on valid parameters *)

Lemma nearest_even_between (t u : Q) (c : Z) :
  nearest_even t c ->
  (u == inject_Z c \/ (inject_Z c < u /\ u <= t) \/ (t <= u /\ u < inject_Z c)) ->
  nearest_even u c.
Proof.
  unfold nearest_even. intros Ht Hu.
  destruct Hu as [Hu | [[U1 U2] | [U1 U2]]].
  - left. split; lra.
  - destruct Ht as [[A B] | [[T | T] E]].
    + left. split; lra.
    + lra.
    + destruct (Qlt_le_dec u (t)) as [L|L].
      * left. split; lra.
      * right. split; [right; lra | exact E].
  - destruct Ht as [[A B] | [[T | T] E]].
    + left. split; lra.
    + destruct (Qlt_le_dec t u) as [L|L].
      * left. split; lra.
      * right. split; [left; lra | exact E].
    + lra.
Qed.

Section SymValid.
Variables (n_bit : Z) (clip_min clip_max : Q).
Hypothesis Hn : (2 <= n_bit)%Z.
Hypothesis Hc : clip_min < clip_max.

Lemma sym_scale_mul :
  sym_scale n_bit clip_min clip_max * inject_Z (2 ^ n_bit - 2)
  == clip_max + py_max clip_max (Qabs clip_min).
Proof.
  pose proof (pow2_ge_2 (n_bit - 1) ltac:(lia)) as P.
  pose proof (pow2_even_minus_2 n_bit ltac:(lia)) as E2.
  unfold sym_scale. rewrite (sym_nbins_valid n_bit ltac:(lia)).
  rewrite div_mul_cancel.
  - unfold sym_clip_min. ring.
  - assert (HL : 2 <= inject_Z (2 ^ n_bit - 2)) by (change 2 with (inject_Z 2); rewrite <- Zle_Qle; lia).
    intros H. rewrite H in HL. lra.
Qed.

Lemma sym_M_bounds :
  clip_max <= py_max clip_max (Qabs clip_min)
  /\ - clip_min <= py_max clip_max (Qabs clip_min).
Proof.
  destruct (py_max_bounds clip_max (Qabs clip_min)) as [A B].
  pose proof (Qle_Qabs (- clip_min)) as C. rewrite Qabs_opp in C.
  split; lra.
Qed.

Lemma sym_scale_pos : 0 < sym_scale n_bit clip_min clip_max.
Proof.
  pose proof sym_scale_mul. destruct sym_M_bounds.
  pose proof (pow2_ge_2 (n_bit - 1) ltac:(lia)) as P.
  pose proof (pow2_even_minus_2 n_bit ltac:(lia)) as E2.
  assert (HL : 2 <= inject_Z (2 ^ n_bit - 2)).
  { change 2 with (inject_Z 2). rewrite <- Zle_Qle. lia. }
  nra.
Qed.

Lemma sym_t_mul (x : Q) :
  (torch_clamp x clip_min clip_max - sym_zp) / sym_scale n_bit clip_min clip_max
  * sym_scale n_bit clip_min clip_max == torch_clamp x clip_min clip_max.
Proof.
  pose proof sym_scale_pos. rewrite div_mul_cancel by lra. unfold sym_zp. ring.
Qed.

Lemma sym_elem_mono (a b : Q) :
  a <= b -> sym_elem n_bit clip_min clip_max a <= sym_elem n_bit clip_min clip_max b.
Proof.
  intros Hab. pose proof sym_scale_pos as Hp.
  assert (Hk : (sym_code n_bit clip_min clip_max a <= sym_code n_bit clip_min clip_max b)%Z).
  { unfold sym_code. apply torch_round_mono.
    pose proof (sym_t_mul a). pose proof (sym_t_mul b).
    pose proof (torch_clamp_mono a b clip_min clip_max Hab). nra. }
  rewrite Zle_Qle in Hk. unfold sym_elem, sym_zp. nra.
Qed.

Lemma sym_elem_err (x : Q) :
  clip_min <= x -> x <= clip_max ->
  Qabs (sym_elem n_bit clip_min clip_max x - x) <= sym_scale n_bit clip_min clip_max / 2.
Proof.
  intros A B. apply Qabs_Qle_condition. pose proof sym_scale_pos as Hp.
  pose proof (sym_t_mul x) as Ht. pose proof (torch_clamp_id _ _ _ A B) as Hx.
  unfold sym_elem, sym_code.
  destruct (torch_round_err ((torch_clamp x clip_min clip_max - sym_zp)
                             / sym_scale n_bit clip_min clip_max)) as [E1 E2].
  assert (Hh : sym_scale n_bit clip_min clip_max / 2
               == (1 # 2) * sym_scale n_bit clip_min clip_max) by field.
  rewrite Hh. unfold sym_zp in *.
  set (sc := sym_scale n_bit clip_min clip_max) in *.
  set (t := (torch_clamp x clip_min clip_max - 0) / sc) in *.
  set (cq := inject_Z (torch_round t)) in *.
  assert (M1 : 0 <= (cq - (t - (1 # 2))) * sc) by (apply Qmult_le_0_compat; lra).
  assert (M2 : 0 <= (t + (1 # 2) - cq) * sc) by (apply Qmult_le_0_compat; lra).
  rewrite Hx in Ht. split; nra.
Qed.

Lemma sym_elem_idem (x : Q) :
  sym_elem n_bit clip_min clip_max (sym_elem n_bit clip_min clip_max x)
  == sym_elem n_bit clip_min clip_max x.
Proof.
  pose proof sym_scale_pos as Hp.
  set (sc := sym_scale n_bit clip_min clip_max) in *.
  set (c := sym_code n_bit clip_min clip_max x).
  set (t := (torch_clamp x clip_min clip_max - sym_zp) / sc).
  assert (Hnt : nearest_even t c) by apply torch_round_spec.
  assert (Ht : t * sc == torch_clamp x clip_min clip_max) by apply sym_t_mul.
  destruct (torch_clamp_range x clip_min clip_max) as [C1 C2]; [lra|].
  assert (Hy : sym_elem n_bit clip_min clip_max x = inject_Z c * sc + sym_zp)
    by reflexivity.
  assert (Hc2 : sym_code n_bit clip_min clip_max (sym_elem n_bit clip_min clip_max x) = c).
  { unfold sym_code at 1. fold sc. rewrite Hy.
    apply torch_round_unique.
    apply (nearest_even_between t); [exact Hnt|].
    set (u := (torch_clamp (inject_Z c * sc + sym_zp) clip_min clip_max - sym_zp) / sc).
    assert (Hu : u * sc == torch_clamp (inject_Z c * sc + sym_zp) clip_min clip_max)
      by apply sym_t_mul.
    unfold sym_zp in *.
    unfold torch_clamp in Hu at 1.
    destruct (Qlt_le_dec (inject_Z c * sc + 0) clip_min) as [L|L].
    - destruct (Qlt_le_dec clip_max clip_min); [lra|].
      right. left. split.
      + apply (Qmult_lt_r _ _ sc Hp). lra.
      + apply (Qmult_le_r _ _ sc Hp). lra.
    - destruct (Qlt_le_dec clip_max (inject_Z c * sc + 0)) as [U|U].
      + right. right. split.
        * apply (Qmult_le_r _ _ sc Hp). lra.
        * apply (Qmult_lt_r _ _ sc Hp). lra.
      + left. assert (Hu' : (u - inject_Z c) * sc == 0) by
          (transitivity (u * sc - (inject_Z c * sc + 0)); [ring | lra]).
        apply Qmult_integral in Hu'. destruct Hu'; lra. }
  unfold sym_elem at 1. rewrite Hc2. reflexivity.
Qed.
Lemma sym_elem_le_max_bin (x : Q) :
  sym_elem n_bit clip_min clip_max x <= sym_max_bin n_bit clip_min clip_max.
Proof.
  pose proof sym_scale_pos as Hp.
  pose proof (sym_t_mul x) as Ht.
  set (sc := sym_scale n_bit clip_min clip_max) in *.
  destruct (torch_clamp_range x clip_min clip_max) as [C1 C2]; [lra|].
  assert (Hk : (sym_code n_bit clip_min clip_max x
                <= torch_round ((clip_max - sym_zp) / sc))%Z).
  { unfold sym_code. fold sc. apply torch_round_mono.
    apply (Qmult_le_r _ _ sc Hp). rewrite Ht.
    unfold sym_zp. rewrite div_mul_cancel by lra. lra. }
  rewrite Zle_Qle in Hk. unfold sym_elem, sym_max_bin. fold sc.
  apply Qplus_le_l. apply Qmult_le_compat_r; lra.
Qed.

Lemma sym_elem_clip_max :
  sym_elem n_bit clip_min clip_max clip_max = sym_max_bin n_bit clip_min clip_max.
Proof.
  unfold sym_elem, sym_max_bin, sym_code.
  rewrite (torch_clamp_id clip_max clip_min clip_max) by lra. reflexivity.
Qed.

(** With [|clip_min| <= clip_max] (the tutorial's [-2.5, 2.5]) the codes
    run over [-K .. K] for [K = 2^(n_bit-1) - 1] and [K * scale] is
    [clip_max]. *)
Lemma sym_tutorial_range (Habs : Qabs clip_min <= clip_max) :
  sym_clip_min clip_min clip_max == - clip_max
  /\ sym_max_bin n_bit clip_min clip_max == clip_max
  /\ forall x, - clip_max <= sym_elem n_bit clip_min clip_max x <= clip_max.
Proof.
  pose proof sym_scale_mul as Hm. pose proof sym_scale_pos as Hp.
  assert (HM : py_max clip_max (Qabs clip_min) = clip_max).
  { unfold py_max. destruct (Qlt_le_dec clip_max (Qabs clip_min)); [lra | reflexivity]. }
  rewrite HM in Hm.
  set (sc := sym_scale n_bit clip_min clip_max) in *.
  set (K := (2 ^ (n_bit - 1) - 1)%Z).
  pose proof (pow2_even_minus_2 n_bit ltac:(lia)) as E2. fold K in E2.
  assert (HK : inject_Z K * sc == clip_max).
  { rewrite E2, inject_Z_mult in Hm. change (inject_Z 2) with 2 in Hm. nra. }
  assert (Hmax : torch_round ((clip_max - sym_zp) / sc) = K).
  { rewrite <- (torch_round_Z K). apply torch_round_compat.
    rewrite <- HK. unfold sym_zp. field. lra. }
  assert (Hlo : - clip_max <= clip_min).
  { pose proof (Qle_Qabs (- clip_min)) as A. rewrite Qabs_opp in A. lra. }
  split; [|split].
  - unfold sym_clip_min. rewrite HM. reflexivity.
  - unfold sym_max_bin. fold sc. rewrite Hmax. unfold sym_zp. lra.
  - intros x.
    destruct (torch_clamp_range x clip_min clip_max) as [C1 C2]; [lra|].
    pose proof (sym_t_mul x) as Ht. fold sc in Ht.
    assert (U : (sym_code n_bit clip_min clip_max x <= K)%Z).
    { rewrite <- (torch_round_Z K). unfold sym_code. fold sc. apply torch_round_mono.
      apply (Qmult_le_r _ _ sc Hp). lra. }
    assert (L : (- K <= sym_code n_bit clip_min clip_max x)%Z).
    { rewrite <- (torch_round_Z (- K)). unfold sym_code. fold sc. apply torch_round_mono.
      apply (Qmult_le_r _ _ sc Hp). rewrite inject_Z_opp. lra. }
    rewrite Zle_Qle in U, L. rewrite inject_Z_opp in L.
    unfold sym_elem. fold sc. unfold sym_zp.
    set (cq := inject_Z (sym_code n_bit clip_min clip_max x)) in *.
    assert (M1 : 0 <= (cq + inject_Z K) * sc) by (apply Qmult_le_0_compat; lra).
    assert (M2 : 0 <= (inject_Z K - cq) * sc) by (apply Qmult_le_0_compat; lra).
    split; lra.
Qed.
(** With [|clip_min| <= clip_max] the codes lie in [-K .. K] for
    [K = 2^(n_bit-1) - 1], and [clip_max] gets the code [K]. *)
Lemma sym_tutorial_codes (Habs : Qabs clip_min <= clip_max) :
  (forall x, (- (2 ^ (n_bit - 1) - 1) <= sym_code n_bit clip_min clip_max x
              <= 2 ^ (n_bit - 1) - 1)%Z)
  /\ sym_code n_bit clip_min clip_max clip_max = (2 ^ (n_bit - 1) - 1)%Z.
Proof.
  pose proof sym_scale_mul as Hm. pose proof sym_scale_pos as Hp.
  assert (HM : py_max clip_max (Qabs clip_min) = clip_max).
  { unfold py_max. destruct (Qlt_le_dec clip_max (Qabs clip_min)); [lra | reflexivity]. }
  rewrite HM in Hm.
  set (sc := sym_scale n_bit clip_min clip_max) in *.
  set (K := (2 ^ (n_bit - 1) - 1)%Z).
  pose proof (pow2_even_minus_2 n_bit ltac:(lia)) as E2. fold K in E2.
  assert (HK : inject_Z K * sc == clip_max).
  { rewrite E2, inject_Z_mult in Hm. change (inject_Z 2) with 2 in Hm. nra. }
  assert (Hmax : torch_round ((clip_max - sym_zp) / sc) = K).
  { rewrite <- (torch_round_Z K). apply torch_round_compat.
    rewrite <- HK. unfold sym_zp. field. lra. }
  assert (Hlo : - clip_max <= clip_min).
  { pose proof (Qle_Qabs (- clip_min)) as A. rewrite Qabs_opp in A. lra. }
  split.
  - intros x.
    destruct (torch_clamp_range x clip_min clip_max) as [C1 C2]; [lra|].
    pose proof (sym_t_mul x) as Ht. fold sc in Ht.
    assert (U : (sym_code n_bit clip_min clip_max x <= K)%Z).
    { rewrite <- (torch_round_Z K). unfold sym_code. fold sc. apply torch_round_mono.
      apply (Qmult_le_r _ _ sc Hp). lra. }
    assert (L : (- K <= sym_code n_bit clip_min clip_max x)%Z).
    { rewrite <- (torch_round_Z (- K)). unfold sym_code. fold sc. apply torch_round_mono.
      apply (Qmult_le_r _ _ sc Hp). rewrite inject_Z_opp. lra. }
    lia.
  - unfold sym_code. rewrite (torch_clamp_id clip_max clip_min clip_max) by lra.
    fold sc. exact Hmax.
Qed.
End SymValid.

(** ** Extra: the two branches of the "symmetric vs asymmetric" loop *)

Lemma torch_round_opp (q : Q) : torch_round (- q) = (- torch_round q)%Z.
Proof.
  apply torch_round_unique. unfold nearest_even.
  rewrite inject_Z_opp, Z.even_opp.
  destruct (torch_round_spec q) as [[A B] | [[T | T] E]].
  - left. split; lra.
  - right. split; [right; lra | exact E].
  - right. split; [left; lra | exact E].
Qed.

Lemma torch_clamp_opp (x h : Q) :
  0 <= h -> torch_clamp (- x) (- h) h == - torch_clamp x (- h) h.
Proof.
  intros H. unfold torch_clamp.
  destruct (Qlt_le_dec (- x) (- h)); destruct (Qlt_le_dec x (- h));
    repeat match goal with |- context [Qlt_le_dec ?a ?b] =>
             destruct (Qlt_le_dec a b) end; lra.
Qed.

Lemma sym_elem_opp (n_bit : Z) (clip_max x : Q) :
  0 <= clip_max ->
  sym_elem n_bit (- clip_max) clip_max (- x) == - sym_elem n_bit (- clip_max) clip_max x.
Proof.
  intros H. unfold sym_elem, sym_code, sym_zp.
  set (sc := sym_scale n_bit (- clip_max) clip_max).
  assert (E : (torch_clamp (- x) (- clip_max) clip_max - 0) / sc
              == - ((torch_clamp x (- clip_max) clip_max - 0) / sc)).
  { rewrite (torch_clamp_opp x clip_max H). unfold Qdiv. ring. }
  rewrite (torch_round_compat _ _ E), torch_round_opp, inject_Z_opp. ring.
Qed.

Lemma Forall2_map_both {A B C : Type} (R : B -> C -> Prop) (f : A -> B) (g : A -> C)
  (l : list A) :
  (forall x, In x l -> R (f x) (g x)) -> Forall2 R (map f l) (map g l).
Proof.
  induction l as [|a l IH]; intros H; simpl; constructor.
  - apply H. left. reflexivity.
  - apply IH. intros x Hx. apply H. right. exact Hx.
Qed.

Lemma np_min_fold (l : list Q) (a m : Q) :
  fold_left (fun acc y => if Qlt_le_dec y acc then y else acc) l a = m ->
  (m = a \/ In m l) /\ m <= a /\ Forall (fun y => m <= y) l.
Proof.
  revert a; induction l as [|b l IH]; intros a E; simpl in E.
  - subst. split; [left; reflexivity | split; [lra | constructor]].
  - destruct (Qlt_le_dec b a) as [H|H].
    + destruct (IH b E) as [[E1|E1] [B F]].
      * split; [right; left; symmetry; exact E1|].
        split; [lra|]. constructor; [lra | exact F].
      * split; [right; right; exact E1|]. split; [lra|]. constructor; [lra | exact F].
    + destruct (IH a E) as [[E1|E1] [B F]].
      * split; [left; exact E1|]. split; [lra|]. constructor; [lra | exact F].
      * split; [right; right; exact E1|]. split; [lra|]. constructor; [lra | exact F].
Qed.

Lemma np_min_spec (l : list Q) (m : Q) :
  np_min l = Some m -> In m l /\ Forall (fun y => m <= y) l.
Proof.
  destruct l as [|a t]; simpl; [discriminate|]. intros E. injection E as E.
  destruct (np_min_fold t a m E) as [[E1|E1] [B F]].
  - split; [left; symmetry; exact E1 | constructor; [lra | exact F]].
  - split; [right; exact E1 | constructor; [lra | exact F]].
Qed.

Lemma torch_clamp_nonneg (x lo hi : Q) :
  lo <= 0 -> 0 <= x -> torch_clamp x lo hi = torch_clamp x 0 hi.
Proof.
  intros H1 H2. unfold torch_clamp.
  destruct (Qlt_le_dec x lo); [lra|]. destruct (Qlt_le_dec x 0); [lra|].
  reflexivity.
Qed.

(** X6: on valid parameters ([n_bit >= 2], [clip_min < clip_max]) the
    symmetric quantizer preserves order: a sorted array quantizes to a
    sorted array. *)
Theorem symQuantizer_sorted (raw : list Q) (n_bit : Z) (clip_min clip_max : Q)
  (Hn : (2 <= n_bit)%Z) (Hc : clip_min < clip_max) (Hs : Sorted Qle raw) :
  Sorted Qle (symQuantizer raw n_bit clip_min clip_max).
Proof.
  unfold symQuantizer.
  induction Hs as [|a l Hs IH Hd]; simpl; constructor; [exact IH|].
  destruct Hd as [|b l Hab]; simpl; constructor.
  apply sym_elem_mono; assumption.
Qed.

Lemma symQuantizer_sorted_witness :
  (2 <= 4)%Z /\ - (5 # 2) < 5 # 2 /\ Sorted Qle [- 3; 0; 1 # 5; 4]
  /\ Sorted Qle (symQuantizer [- 3; 0; 1 # 5; 4] 4 (- (5 # 2)) (5 # 2)).
Proof.
  assert (S : Sorted Qle [- 3; 0; 1 # 5; 4]).
  { repeat (apply Sorted_cons || apply Sorted_nil || apply HdRel_cons
            || apply HdRel_nil || (vm_compute; discriminate)). }
  split; [lia|]. split; [vm_compute; reflexivity|]. split; [exact S|].
  apply (symQuantizer_sorted [- 3; 0; 1 # 5; 4] 4 (- (5 # 2)) (5 # 2));
    [lia | vm_compute; reflexivity | exact S].
Defined.

(** X7: on valid parameters every input inside [[clip_min, clip_max]] is
    moved by the symmetric quantizer by at most half its step
    [scale = (clip_max - clip_min_i) / nbins]. *)
Theorem symQuantizer_error_bound (raw : list Q) (n_bit : Z) (clip_min clip_max : Q)
  (Hn : (2 <= n_bit)%Z) (Hc : clip_min < clip_max)
  (Hr : Forall (fun x => clip_min <= x /\ x <= clip_max) raw) :
  Forall2 (fun x y => Qabs (y - x) <= sym_scale n_bit clip_min clip_max / 2)
    raw (symQuantizer raw n_bit clip_min clip_max).
Proof.
  unfold symQuantizer. apply Forall2_map_r. intros x Hx.
  rewrite Forall_forall in Hr. destruct (Hr x Hx) as [A B].
  apply sym_elem_err; assumption.
Qed.

Lemma symQuantizer_error_bound_witness :
  (2 <= 4)%Z /\ - (5 # 2) < 5 # 2
  /\ Forall (fun x => - (5 # 2) <= x /\ x <= 5 # 2) [- 2; 0; 1 # 5; 5 # 2]
  /\ Forall2 (fun x y => Qabs (y - x) <= sym_scale 4 (- (5 # 2)) (5 # 2) / 2)
       [- 2; 0; 1 # 5; 5 # 2] (symQuantizer [- 2; 0; 1 # 5; 5 # 2] 4 (- (5 # 2)) (5 # 2)).
Proof.
  assert (F : Forall (fun x => - (5 # 2) <= x /\ x <= 5 # 2) [- 2; 0; 1 # 5; 5 # 2]).
  { repeat (apply Forall_cons || apply Forall_nil || split || (vm_compute; discriminate)). }
  split; [lia|]. split; [vm_compute; reflexivity|]. split; [exact F|].
  apply (symQuantizer_error_bound [- 2; 0; 1 # 5; 5 # 2] 4 (- (5 # 2)) (5 # 2));
    [lia | vm_compute; reflexivity | exact F].
Defined.

(** X8: on valid parameters quantizing the output of the symmetric quantizer
    again changes no value. *)
Theorem symQuantizer_idempotent (raw : list Q) (n_bit : Z) (clip_min clip_max : Q)
  (Hn : (2 <= n_bit)%Z) (Hc : clip_min < clip_max) :
  Forall2 Qeq
    (symQuantizer (symQuantizer raw n_bit clip_min clip_max) n_bit clip_min clip_max)
    (symQuantizer raw n_bit clip_min clip_max).
Proof.
  unfold symQuantizer. rewrite map_map. apply Forall2_map_both.
  intros x _. apply sym_elem_idem; assumption.
Qed.

Lemma symQuantizer_idempotent_witness :
  (2 <= 3)%Z /\ - 1 < 3
  /\ Forall2 Qeq
       (symQuantizer (symQuantizer [- 2; 0; 1 # 5; 7 # 3] 3 (- 1) 3) 3 (- 1) 3)
       (symQuantizer [- 2; 0; 1 # 5; 7 # 3] 3 (- 1) 3).
Proof.
  split; [lia|]. split; [vm_compute; reflexivity|].
  apply (symQuantizer_idempotent [- 2; 0; 1 # 5; 7 # 3] 3 (- 1) 3);
    [lia | vm_compute; reflexivity].
Defined.

(** X9: on valid parameters the "upper clip bound" [max_bin_i] of the
    symmetric branch is the largest value the quantizer can output: every
    output is at most [max_bin_i], and the input [clip_max] quantizes to
    exactly [max_bin_i]. *)
Theorem sym_max_bin_largest (raw : list Q) (n_bit : Z) (clip_min clip_max : Q)
  (Hn : (2 <= n_bit)%Z) (Hc : clip_min < clip_max) :
  Forall (fun y => y <= sym_max_bin n_bit clip_min clip_max)
    (symQuantizer raw n_bit clip_min clip_max)
  /\ symQuantizer [clip_max] n_bit clip_min clip_max
     = [sym_max_bin n_bit clip_min clip_max].
Proof.
  split.
  - apply Forall_forall. intros y Hy. unfold symQuantizer in Hy.
    apply in_map_iff in Hy. destruct Hy as (x & <- & _).
    apply sym_elem_le_max_bin; assumption.
  - simpl. rewrite sym_elem_clip_max by assumption. reflexivity.
Qed.

Lemma sym_max_bin_largest_witness :
  (2 <= 3)%Z /\ - 4 < 1
  /\ Forall (fun y => y <= sym_max_bin 3 (- 4) 1) (symQuantizer [- 5; 0; 1 # 2; 3] 3 (- 4) 1)
  /\ symQuantizer [1] 3 (- 4) 1 = [sym_max_bin 3 (- 4) 1].
Proof.
  split; [lia|]. split; [vm_compute; reflexivity|].
  apply (sym_max_bin_largest [- 5; 0; 1 # 2; 3] 3 (- 4) 1);
    [lia | vm_compute; reflexivity].
Defined.

(** X10: with [|clip_min| <= clip_max] (the tutorial's [-2.5, 2.5]) the two
    annotated bounds of the symmetric branch are [clip_min_i = -clip_max]
    and [max_bin_i = clip_max], and every output lies between them. *)
Theorem sym_clip_bounds_tutorial (raw : list Q) (n_bit : Z) (clip_min clip_max : Q)
  (Hn : (2 <= n_bit)%Z) (Hc : clip_min < clip_max) (Habs : Qabs clip_min <= clip_max) :
  sym_clip_min clip_min clip_max == - clip_max
  /\ sym_max_bin n_bit clip_min clip_max == clip_max
  /\ Forall (fun y => sym_clip_min clip_min clip_max <= y
                      /\ y <= sym_max_bin n_bit clip_min clip_max)
       (symQuantizer raw n_bit clip_min clip_max).
Proof.
  destruct (sym_tutorial_range n_bit clip_min clip_max Hn Hc Habs) as (A & B & C).
  split; [exact A|]. split; [exact B|].
  apply Forall_forall. intros y Hy. unfold symQuantizer in Hy.
  apply in_map_iff in Hy. destruct Hy as (x & <- & _).
  rewrite A, B. apply C.
Qed.

Lemma sym_clip_bounds_tutorial_witness :
  (2 <= 4)%Z /\ - (5 # 2) < 5 # 2 /\ Qabs (- (5 # 2)) <= 5 # 2
  /\ sym_clip_min (- (5 # 2)) (5 # 2) == - (5 # 2)
  /\ sym_max_bin 4 (- (5 # 2)) (5 # 2) == 5 # 2
  /\ Forall (fun y => sym_clip_min (- (5 # 2)) (5 # 2) <= y
                      /\ y <= sym_max_bin 4 (- (5 # 2)) (5 # 2))
       (symQuantizer [- 3; 0; 1 # 5; 4] 4 (- (5 # 2)) (5 # 2)).
Proof.
  split; [lia|]. split; [vm_compute; reflexivity|]. split; [vm_compute; discriminate|].
  apply (sym_clip_bounds_tutorial [- 3; 0; 1 # 5; 4] 4 (- (5 # 2)) (5 # 2));
    [lia | vm_compute; reflexivity | vm_compute; discriminate].
Defined.

(** X11: with the symmetric range [clip_min = -clip_max] the symmetric
    quantizer is odd: negating the input negates the output. *)
Theorem symQuantizer_odd (raw : list Q) (n_bit : Z) (clip_max : Q)
  (Hn : (2 <= n_bit)%Z) (Hc : 0 < clip_max) :
  Forall2 (fun y z => y == - z)
    (symQuantizer (map Qopp raw) n_bit (- clip_max) clip_max)
    (symQuantizer raw n_bit (- clip_max) clip_max).
Proof.
  unfold symQuantizer. rewrite map_map. apply Forall2_map_both.
  intros x _. apply sym_elem_opp. lra.
Qed.

Lemma symQuantizer_odd_witness :
  (2 <= 4)%Z /\ 0 < 5 # 2
  /\ Forall2 (fun y z => y == - z)
       (symQuantizer (map Qopp [- 3; 0; 1 # 5; 5 # 14]) 4 (- (5 # 2)) (5 # 2))
       (symQuantizer [- 3; 0; 1 # 5; 5 # 14] 4 (- (5 # 2)) (5 # 2)).
Proof.
  split; [lia|]. split; [vm_compute; reflexivity|].
  apply (symQuantizer_odd [- 3; 0; 1 # 5; 5 # 14] 4 (5 # 2));
    [lia | vm_compute; reflexivity].
Defined.

(** X12: on nonnegative data whose minimum is [0] (data like the
    tutorial's [np.abs(raw_data)]), with [clip_min <= 0 < clip_max] and
    [n_bit >= 1], the "asym Q" branch of the loop gives the same values as
    [simpleQuantizer] on the range [[0, clip_max]]. *)
Theorem asymQ_branch_simpleQuantizer (raw : list Q) (n_bit : Z) (clip_min clip_max : Q)
  (Hn : (1 <= n_bit)%Z) (Hlo : clip_min <= 0) (Hhi : 0 < clip_max)
  (Hnn : Forall (fun x => 0 <= x) raw) (H0 : Exists (fun x => x == 0) raw) :
  exists out out',
    asymQ_branch raw n_bit clip_min clip_max = Some out
    /\ simpleQuantizer raw n_bit 0 clip_max = inr out'
    /\ Forall2 Qeq out out'.
Proof.
  destruct (simpleQuantizer_valid raw n_bit 0 clip_max Hn) as (s & _ & _ & Hs & E).
  destruct (np_min raw) as [m|] eqn:Em.
  2: { destruct raw; [inversion H0 | simpl in Em; discriminate]. }
  destruct (np_min_spec raw m Em) as [Hin Hall].
  rewrite Forall_forall in Hnn, Hall.
  apply Exists_exists in H0. destruct H0 as (x0 & Hx0 & Ex0).
  assert (Hm0 : m == 0) by (pose proof (Hnn m Hin); pose proof (Hall x0 Hx0); lra).
  set (scale := (clip_max - m) / (py_pow2 n_bit - 1)).
  pose proof (py_pow2_minus n_bit 1 ltac:(lia)) as HP. rewrite inject_Z_1 in HP.
  assert (Hsc : scale == s) by (unfold scale; rewrite Hm0, HP, Hs; reflexivity).
  assert (Hz : torch_round (- m / scale) = 0%Z).
  { rewrite <- (torch_round_Z 0). apply torch_round_compat.
    rewrite Hm0, inject_Z_0. unfold Qdiv. ring. }
  eexists. exists (map (asym_elem 0 clip_max s) raw).
  split.
  { unfold asymQ_branch. rewrite Em. cbv zeta. fold scale. rewrite Hz. reflexivity. }
  split; [exact E|].
  apply Forall2_map_both. intros x Hx.
  unfold asym_elem, asym_code, asym_scaled.
  rewrite (torch_clamp_nonneg x clip_min clip_max Hlo (Hnn x Hx)).
  assert (Ec : (torch_clamp x 0 clip_max - inject_Z 0) / scale
               == (torch_clamp x 0 clip_max - 0) / s) by (rewrite Hsc, inject_Z_0; reflexivity).
  rewrite (torch_round_compat _ _ Ec), Hsc, inject_Z_0. reflexivity.
Qed.

Lemma asymQ_branch_simpleQuantizer_witness :
  (1 <= 4)%Z /\ - (5 # 2) <= 0 /\ 0 < 5 # 2
  /\ Forall (fun x => 0 <= x) [3 # 2; 0; 1 # 5; 3]
  /\ Exists (fun x => x == 0) [3 # 2; 0; 1 # 5; 3]
  /\ exists out out',
       asymQ_branch [3 # 2; 0; 1 # 5; 3] 4 (- (5 # 2)) (5 # 2) = Some out
       /\ simpleQuantizer [3 # 2; 0; 1 # 5; 3] 4 0 (5 # 2) = inr out'
       /\ Forall2 Qeq out out'.
Proof.
  assert (F : Forall (fun x => 0 <= x) [3 # 2; 0; 1 # 5; 3]).
  { repeat (apply Forall_cons || apply Forall_nil || (vm_compute; discriminate)). }
  assert (X : Exists (fun x => x == 0) [3 # 2; 0; 1 # 5; 3]).
  { apply Exists_cons_tl. apply Exists_cons_hd. reflexivity. }
  split; [lia|]. split; [vm_compute; discriminate|]. split; [vm_compute; reflexivity|].
  split; [exact F|]. split; [exact X|].
  apply (asymQ_branch_simpleQuantizer [3 # 2; 0; 1 # 5; 3] 4 (- (5 # 2)) (5 # 2));
    [lia | vm_compute; discriminate | vm_compute; reflexivity | exact F | exact X].
Defined.

Lemma sym_code_opp (n_bit : Z) (clip_max x : Q) :
  0 <= clip_max ->
  sym_code n_bit (- clip_max) clip_max (- x) = (- sym_code n_bit (- clip_max) clip_max x)%Z.
Proof.
  intros H. unfold sym_code, sym_zp. rewrite <- torch_round_opp.
  apply torch_round_compat. rewrite (torch_clamp_opp x clip_max H). unfold Qdiv. ring.
Qed.

(** ** Claim C4 *)

(** C4 (amended): on valid parameters the output of [simpleQuantizer] has
    at most [2^n_bit] distinct values, and the output of the symmetric
    quantizer ([n_bit >= 2]) at most [2^n_bit - 1], whatever the size of the
    input. With [clip_min = -clip_max] the codes of the symmetric quantizer
    run from [-(2^(n_bit-1) - 1)] (the code of [-clip_max]) to
    [2^(n_bit-1) - 1] (the code of [clip_max]). *)
Theorem quantizer_distinct_values :
  (forall input n_bit clip_min clip_max,
      (1 <= n_bit)%Z -> clip_min < clip_max ->
      exists output,
        simpleQuantizer input n_bit clip_min clip_max = inr output
        /\ (length (distinct_values output) <= Z.to_nat (2 ^ n_bit))%nat)
  /\ (forall raw n_bit clip_min clip_max,
      (2 <= n_bit)%Z -> clip_min < clip_max ->
      (length (distinct_values (symQuantizer raw n_bit clip_min clip_max))
       <= Z.to_nat (2 ^ n_bit - 1))%nat)
  /\ (forall n_bit clip_max,
      (2 <= n_bit)%Z -> 0 < clip_max ->
      (forall x, (- (2 ^ (n_bit - 1) - 1) <= sym_code n_bit (- clip_max) clip_max x
                  <= 2 ^ (n_bit - 1) - 1)%Z)
      /\ sym_code n_bit (- clip_max) clip_max clip_max = (2 ^ (n_bit - 1) - 1)%Z
      /\ sym_code n_bit (- clip_max) clip_max (- clip_max) = (- (2 ^ (n_bit - 1) - 1))%Z).
Proof.
  split; [|split].
  - exact simpleQuantizer_distinct.
  - exact symQuantizer_distinct.
  - intros n_bit clip_max Hn Hc.
    assert (Habs : Qabs (- clip_max) <= clip_max)
      by (rewrite Qabs_opp, Qabs_pos by lra; lra).
    destruct (sym_tutorial_codes n_bit (- clip_max) clip_max Hn ltac:(lra) Habs) as [A B].
    split; [exact A|]. split; [exact B|].
    rewrite sym_code_opp by lra. rewrite B. reflexivity.
Qed.

Lemma quantizer_distinct_values_witness :
  ((1 <= 4)%Z /\ - (5 # 2) < 5 # 2 /\
   exists output,
     simpleQuantizer [0; 3; - 7; 1 # 5] 4 (- (5 # 2)) (5 # 2) = inr output
     /\ (length (distinct_values output) <= Z.to_nat (2 ^ 4))%nat)
  /\ ((2 <= 4)%Z /\ - (5 # 2) < 5 # 2 /\
      Nat.le (length (distinct_values
                        (symQuantizer [0; 3; - 7; 1 # 5] 4 (- (5 # 2)) (5 # 2))))
             (Z.to_nat (2 ^ 4 - 1)))
  /\ ((2 <= 4)%Z /\ 0 < 5 # 2 /\
      (forall x, (- (2 ^ (4 - 1) - 1) <= sym_code 4 (- (5 # 2)) (5 # 2) x
                  <= 2 ^ (4 - 1) - 1)%Z)
      /\ sym_code 4 (- (5 # 2)) (5 # 2) (5 # 2) = (2 ^ (4 - 1) - 1)%Z
      /\ sym_code 4 (- (5 # 2)) (5 # 2) (- (5 # 2)) = (- (2 ^ (4 - 1) - 1))%Z).
Proof.
  destruct quantizer_distinct_values as [A [B C]].
  split; [|split].
  - split; [lia|]. split; [vm_compute; reflexivity|].
    apply (A [0; 3; - 7; 1 # 5] 4%Z); [lia | vm_compute; reflexivity].
  - split; [lia|]. split; [vm_compute; reflexivity|].
    apply (B [0; 3; - 7; 1 # 5] 4%Z); [lia | vm_compute; reflexivity].
  - split; [lia|]. split; [vm_compute; reflexivity|].
    apply (C 4%Z (5 # 2)); [lia | vm_compute; reflexivity].
Defined.
